(** * Triton gRPC example clients: a shallow embedding and its properties

    The repository holds two example programs,
    [simple_grpc_infer_client.cc] (synchronous) and
    [simple_grpc_async_infer_client.cc] (asynchronous).  This file embeds

    - their command-line handling (the [getopt] loops and the [switch]
      over the returned option),
    - the result validation of the synchronous client, and
    - the callback / mutex / condition-variable code of the asynchronous
      client, as an interleaving transition system,

    and then states and proves the properties of the specification. *)

From Stdlib Require Import ZArith Lia String Ascii List Permutation.
From stdpp Require Import base option list strings pretty gmap.

Local Open Scope string_scope.
Local Open Scope list_scope.
Local Open Scope Z_scope.

(** ** Values shared by the two programs *)

Module Common.

(** [tc::Error]: either success or an error carrying a message. *)
Inductive Error : Type :=
| Success
| Err (msg : string).

Definition IsOk (e : Error) : bool :=
  match e with Success => true | Err _ => false end.

Definition Message (e : Error) : string :=
  match e with Success => "" | Err m => m end.

(** The C++ exceptions the parsing code can raise; none is caught, so
    a raised exception ends the process through [std::terminate]. *)
Inductive exn : Type :=
| out_of_range (what : string)
| invalid_argument (what : string).

(** A run of sequential code: it returns a value, calls [exit] with a
    status after writing lines to [std::cerr], or raises. *)
Inductive run (A : Type) : Type :=
| Ret (a : A)
| Exit (code : Z) (cerr : list string)
| Throw (e : exn).
Arguments Ret {A} a.
Arguments Exit {A} code cerr.
Arguments Throw {A} e.

(** Sequencing stops at the first [exit] or exception. *)
#[export] Instance run_ret : MRet run := fun A a => Ret a.
#[export] Instance run_bind : MBind run := fun A B k m =>
  match m with
  | Ret a => k a
  | Exit c l => Exit c l
  | Throw e => Throw e
  end.

(** [FAIL_IF_ERR(X, MSG)]. *)
Definition FAIL_IF_ERR (X : Error) (MSG : string) : run unit :=
  match X with
  | Success => Ret tt
  | Err m => Exit 1 ["error: " +:+ MSG +:+ ": " +:+ m]
  end.

(** *** [std::string] operations, sizes as [size_t] values *)

Definition size_max : Z := 2 ^ 64 - 1.
Definition npos : Z := size_max.

Definition size (s : string) : Z := Z.of_nat (String.length s).

(** [s.find(pat)]: the first position of [pat] in [s], or [npos]. *)
Definition find (s pat : string) : Z :=
  match String.index 0 pat s with
  | Some k => Z.of_nat k
  | None => npos
  end.

(** [s.substr(pos, n)]: raises [std::out_of_range] when [pos > size()],
    otherwise the [min n (size() - pos)] characters from [pos]. *)
Definition substr (s : string) (pos n : Z) : run string :=
  if size s <? pos then Throw (out_of_range "basic_string::substr")
  else Ret (String.substring (Z.to_nat pos)
                             (Z.to_nat (Z.min n (size s - pos))) s).

(** *** [std::stoi] and [std::stoul] (base 10) *)

Definition isspace (c : ascii) : bool :=
  let n := nat_of_ascii c in
  ((n =? 32) || ((9 <=? n) && (n <=? 13)))%nat.

Definition isdigit (c : ascii) : bool :=
  let n := nat_of_ascii c in ((48 <=? n) && (n <=? 57))%nat.

Definition digit_val (c : ascii) : Z := Z.of_nat (nat_of_ascii c) - 48.

Fixpoint skip_space (s : string) : string :=
  match s with
  | String c s' => if isspace c then skip_space s' else s
  | EmptyString => s
  end.

(** The longest run of decimal digits at the front of [s], as a number;
    [None] when [s] does not start with a digit. *)
Fixpoint digits (s : string) (acc : Z) (seen : bool) : option Z :=
  match s with
  | String c s' =>
      if isdigit c then digits s' (acc * 10 + digit_val c) true
      else if seen then Some acc else None
  | EmptyString => if seen then Some acc else None
  end.

(** The sign and magnitude [strtol] / [strtoul] read. *)
Definition signed_digits (s : string) : option (bool * Z) :=
  match skip_space s with
  | String "-" s' => m ← digits s' 0 false; Some (true, m)
  | String "+" s' => m ← digits s' 0 false; Some (false, m)
  | s' => m ← digits s' 0 false; Some (false, m)
  end.

(** [std::stoi(str)]: an [int]. *)
Definition stoi (str : string) : run Z :=
  match signed_digits str with
  | None => Throw (invalid_argument "stoi")
  | Some (neg, m) =>
      let v := if neg then - m else m in
      if (v <? - 2 ^ 31) || (2 ^ 31 - 1 <? v)
      then Throw (out_of_range "stoi") else Ret v
  end.

(** [std::stoul(str)]: an [unsigned long]; a minus sign negates in
    unsigned arithmetic. *)
Definition stoul (str : string) : run Z :=
  match signed_digits str with
  | None => Throw (invalid_argument "stoul")
  | Some (neg, m) =>
      if size_max <? m then Throw (out_of_range "stoul")
      else Ret (if neg then (- m) mod 2 ^ 64 else m)
  end.

(** Conversion of an [int] to [uint32_t]. *)
Definition to_uint32 (v : Z) : Z := v mod 2 ^ 32.

End Common.

(** ** The C library's option scanner

    [getopt] and [getopt_long] belong to the C library, not to the
    repository.  The model below follows the GNU implementation in its
    default mode: arguments that are not options are skipped, ["--"] ends
    the scan, options can be clustered (["-vu" "url"]), an option
    argument is the rest of the element or else the next element, and a
    character that is not in the option string, or a required argument
    that is missing, yields ['?'] (the scanner's own message on
    [stderr] is left out).  With long options, ["--name"],
    ["--name=value"] and ["--name" "value"] select the option of that
    name or the only one that [name] abbreviates.  Optional arguments
    (["x::"]) are not modelled: neither program uses them.  [scan_from]
    lists the values that successive calls return, up to the call that
    returns [-1]. *)

Module Getopt.

Definition chr (c : ascii) : Z := Z.of_nat (nat_of_ascii c).

(** One return of [getopt]: the value of [opt] and of [optarg]. *)
Record ret : Type := mk_ret { opt : Z; optarg : option string }.

Definition unknown : ret := mk_ret (chr "?") None.

(** [struct option], with its [flag] field always null. *)
Record option_ : Type :=
  mk_option { name : string; has_arg : bool; val : Z }.

(** Whether [c] is an option character of [optstring], and whether it
    takes an argument ([':'] and [';'] are never option characters). *)
Fixpoint lookup_opt (c : ascii) (optstring : list ascii) : option bool :=
  match optstring with
  | [] => None
  | x :: rest =>
      if (Ascii.eqb x c && negb (Ascii.eqb c ":") && negb (Ascii.eqb c ";"))%bool
      then Some (match rest with
                 | y :: _ => Ascii.eqb y ":"
                 | [] => false
                 end)
      else lookup_opt c rest
  end.

(** The option characters of one element (after its ['-']); [next] is
    the following element.  The boolean tells whether [next] was taken
    as an option argument. *)
Fixpoint cluster (optstring : list ascii) (chars : list ascii)
         (next : option string) : list ret * bool :=
  match chars with
  | [] => ([], false)
  | c :: cs =>
      match lookup_opt c optstring with
      | None =>
          let '(rs, b) := cluster optstring cs next in (unknown :: rs, b)
      | Some false =>
          let '(rs, b) := cluster optstring cs next in
          (mk_ret (chr c) None :: rs, b)
      | Some true =>
          match cs with
          | _ :: _ =>
              ([mk_ret (chr c) (Some (string_of_list_ascii cs))], false)
          | [] =>
              match next with
              | Some a => ([mk_ret (chr c) (Some a)], true)
              | None => ([unknown], false)
              end
          end
      end
  end.

(** Splitting ["name=value"]. *)
Fixpoint split_eq (s : string) : string * option string :=
  match s with
  | EmptyString => (EmptyString, None)
  | String c s' =>
      if Ascii.eqb c "=" then (EmptyString, Some s')
      else let '(n, v) := split_eq s' in (String c n, v)
  end.

(** The long option a name selects: an exact match, or else the only
    option the name abbreviates. *)
Definition match_long (longopts : list option_) (nm : string)
  : option option_ :=
  match filter (fun o => String.eqb (name o) nm) longopts with
  | o :: _ => Some o
  | [] =>
      match filter (fun o => String.prefix nm (name o)) longopts with
      | [o] => Some o
      | _ => None
      end
  end.

(** One element ["--body"] for [getopt_long]. *)
Definition long_option (longopts : list option_) (body : string)
           (next : option string) : list ret * bool :=
  let '(nm, v) := split_eq body in
  match match_long longopts nm with
  | None => ([unknown], false)
  | Some o =>
      if has_arg o then
        match v with
        | Some a => ([mk_ret (val o) (Some a)], false)
        | None =>
            match next with
            | Some a => ([mk_ret (val o) (Some a)], true)
            | None => ([unknown], false)
            end
        end
      else
        match v with
        | Some _ => ([unknown], false)
        | None => ([mk_ret (val o) None], false)
        end
  end.

(** How an element of [argv] is read. *)
Inductive element : Type :=
| NonOption
| EndOfOptions
| Short (chars : list ascii)
| Long (body : string).

Definition classify (long : bool) (a : string) : element :=
  match a with
  | String "-" EmptyString => NonOption
  | String "-" (String "-" EmptyString) => EndOfOptions
  | String "-" (String "-" body) =>
      if long then Long body
      else Short ("-"%char :: list_ascii_of_string body)
  | String "-" rest => Short (list_ascii_of_string rest)
  | _ => NonOption
  end.

Definition element_rets (optstring : list ascii)
           (longopts : option (list option_)) (e : element)
           (next : option string) : list ret * bool :=
  match e with
  | Short chars => cluster optstring chars next
  | Long body =>
      match longopts with
      | Some lo => long_option lo body next
      | None => ([], false)
      end
  | NonOption | EndOfOptions => ([], false)
  end.

(** The elements after [argv[0]]. *)
Fixpoint scan_from (optstring : list ascii)
         (longopts : option (list option_)) (args : list string)
  : list ret :=
  match args with
  | [] => []
  | a :: rest =>
      match classify (bool_decide (is_Some longopts)) a with
      | EndOfOptions => []
      | NonOption => scan_from optstring longopts rest
      | e =>
          match rest with
          | [] => fst (element_rets optstring longopts e None)
          | b :: rest' =>
              let '(rs, taken) :=
                element_rets optstring longopts e (Some b) in
              rs ++ (if taken : bool
                     then scan_from optstring longopts rest'
                     else scan_from optstring longopts rest)
          end
      end
  end.

(** [getopt(argc, argv, optstring)], called until it returns [-1]. *)
Definition getopt (argv : list string) (optstring : string) : list ret :=
  scan_from (list_ascii_of_string optstring) None (tail argv).

(** [getopt_long(argc, argv, optstring, longopts, NULL)], likewise. *)
Definition getopt_long (argv : list string) (optstring : string)
           (longopts : list option_) : list ret :=
  scan_from (list_ascii_of_string optstring) (Some longopts) (tail argv).

End Getopt.

(** ** The client library's result interface

    [grpc_client.h] is not part of the repository.  [tc::InferResult] is
    an abstract class; the programs use the methods below, each returning
    a [tc::Error] and filling an output parameter.  [RawData] hands out a
    buffer, here its bytes. *)

Module Client.
Import Common.

Class InferResultOps (R : Type) : Type := {
  RequestStatus : R -> Error;
  Shape : R -> string -> Error * list Z;
  Datatype : R -> string -> Error * string;
  RawData : R -> string -> Error * list Byte.byte;
}.

(** A result given by its status and its named output tensors. *)
Record tensor : Type :=
  mk_tensor { t_shape : list Z; t_datatype : string; t_raw : list Byte.byte }.

Record response : Type :=
  mk_response { req_status : Error; tensors : list (string * tensor) }.

Definition get_tensor (r : response) (nm : string) : option tensor :=
  snd <$> List.find (fun p => String.eqb (fst p) nm) (tensors r).

Definition no_output (nm : string) : Error :=
  Err ("The response does not contain results for output name " +:+ nm).

#[export] Instance response_ops : InferResultOps response := {
  RequestStatus := req_status;
  Shape r nm :=
    match get_tensor r nm with
    | Some t => (Success, t_shape t)
    | None => (no_output nm, [])
    end;
  Datatype r nm :=
    match get_tensor r nm with
    | Some t => (Success, t_datatype t)
    | None => (no_output nm, "")
    end;
  RawData r nm :=
    match get_tensor r nm with
    | Some t => (Success, t_raw t)
    | None => (no_output nm, [])
    end;
}.

(** The [int32_t] at index [i] of a buffer read through an
    [int32_t*] (little-endian, two's complement). *)
Definition byte_at (buf : list Byte.byte) (k : nat) : Z :=
  match buf !! k with
  | Some b => Z.of_N (Byte.to_N b)
  | None => 0
  end.

Definition to_int32 (u : Z) : Z :=
  if u <? 2 ^ 31 then u else u - 2 ^ 32.

Definition load_int32 (buf : list Byte.byte) (i : nat) : Z :=
  to_int32
    (Z.lor (byte_at buf (4 * i))
       (Z.lor (Z.shiftl (byte_at buf (4 * i + 1)) 8)
          (Z.lor (Z.shiftl (byte_at buf (4 * i + 2)) 16)
             (Z.shiftl (byte_at buf (4 * i + 3)) 24)))).

End Client.

(** ** The synchronous client, [simple_grpc_infer_client.cc] *)

Module SyncClient.
Import Common Getopt Client.

Definition tab : string := String "009"%char EmptyString.

(** [Usage(argv, msg)]: the lines written to [std::cerr], then
    [exit(1)]. *)
Definition Usage {A} (argv0 : string) (msg : string) : run A :=
  Exit 1
    ((if String.eqb msg "" then [] else ["error: " +:+ msg]) ++
     [ "Usage: " +:+ argv0 +:+ " [options]";
       tab +:+ "-v";
       tab +:+ "-m <model name>";
       tab +:+ "-u <URL for inference service>";
       tab +:+ "-t <client timeout in microseconds>";
       tab +:+ "-H <HTTP header>";
       tab +:+ "For -H, header must be 'Header:Value'. May be given multiple times.";
       tab +:+ "-C <grpc compression algorithm>. 'deflate', 'gzip' and 'none' are supported";
       tab +:+ "-c <use_cached_channel>.  Use cached channel when creating new client.  Specify 'true' or 'false'. True by default";
       "" ]).

Inductive grpc_compression_algorithm : Type :=
| GRPC_COMPRESS_NONE
| GRPC_COMPRESS_DEFLATE
| GRPC_COMPRESS_GZIP.

(** The local variables of [main] that the option loop assigns. *)
Record config : Type := mk_config {
  verbose : bool;
  url : string;
  http_headers : gmap string string;
  client_timeout : Z;
  use_ssl : bool;
  root_certificates : string;
  private_key : string;
  certificate_chain : string;
  compression_algorithm : grpc_compression_algorithm;
  test_use_cached_channel : bool;
  use_cached_channel : bool;
  uid : Z;
}.

Definition initial : config :=
  {| verbose := false; url := "localhost:8001"; http_headers := ∅;
     client_timeout := 0; use_ssl := false; root_certificates := "";
     private_key := ""; certificate_chain := "";
     compression_algorithm := GRPC_COMPRESS_NONE;
     test_use_cached_channel := false; use_cached_channel := true;
     uid := 1 |}.

Definition set_verbose (b : bool) (c : config) : config :=
  mk_config b (url c) (http_headers c) (client_timeout c) (use_ssl c)
    (root_certificates c) (private_key c) (certificate_chain c)
    (compression_algorithm c) (test_use_cached_channel c)
    (use_cached_channel c) (uid c).
Definition set_url (u : string) (c : config) : config :=
  mk_config (verbose c) u (http_headers c) (client_timeout c) (use_ssl c)
    (root_certificates c) (private_key c) (certificate_chain c)
    (compression_algorithm c) (test_use_cached_channel c)
    (use_cached_channel c) (uid c).
Definition set_http_headers (h : gmap string string) (c : config) : config :=
  mk_config (verbose c) (url c) h (client_timeout c) (use_ssl c)
    (root_certificates c) (private_key c) (certificate_chain c)
    (compression_algorithm c) (test_use_cached_channel c)
    (use_cached_channel c) (uid c).
Definition set_client_timeout (t : Z) (c : config) : config :=
  mk_config (verbose c) (url c) (http_headers c) t (use_ssl c)
    (root_certificates c) (private_key c) (certificate_chain c)
    (compression_algorithm c) (test_use_cached_channel c)
    (use_cached_channel c) (uid c).
Definition set_use_ssl (b : bool) (c : config) : config :=
  mk_config (verbose c) (url c) (http_headers c) (client_timeout c) b
    (root_certificates c) (private_key c) (certificate_chain c)
    (compression_algorithm c) (test_use_cached_channel c)
    (use_cached_channel c) (uid c).
Definition set_root_certificates (x : string) (c : config) : config :=
  mk_config (verbose c) (url c) (http_headers c) (client_timeout c)
    (use_ssl c) x (private_key c) (certificate_chain c)
    (compression_algorithm c) (test_use_cached_channel c)
    (use_cached_channel c) (uid c).
Definition set_private_key (x : string) (c : config) : config :=
  mk_config (verbose c) (url c) (http_headers c) (client_timeout c)
    (use_ssl c) (root_certificates c) x (certificate_chain c)
    (compression_algorithm c) (test_use_cached_channel c)
    (use_cached_channel c) (uid c).
Definition set_certificate_chain (x : string) (c : config) : config :=
  mk_config (verbose c) (url c) (http_headers c) (client_timeout c)
    (use_ssl c) (root_certificates c) (private_key c) x
    (compression_algorithm c) (test_use_cached_channel c)
    (use_cached_channel c) (uid c).
Definition set_compression_algorithm (a : grpc_compression_algorithm)
           (c : config) : config :=
  mk_config (verbose c) (url c) (http_headers c) (client_timeout c)
    (use_ssl c) (root_certificates c) (private_key c)
    (certificate_chain c) a (test_use_cached_channel c)
    (use_cached_channel c) (uid c).
Definition set_test_use_cached_channel (b : bool) (c : config) : config :=
  mk_config (verbose c) (url c) (http_headers c) (client_timeout c)
    (use_ssl c) (root_certificates c) (private_key c)
    (certificate_chain c) (compression_algorithm c) b
    (use_cached_channel c) (uid c).
Definition set_use_cached_channel (b : bool) (c : config) : config :=
  mk_config (verbose c) (url c) (http_headers c) (client_timeout c)
    (use_ssl c) (root_certificates c) (private_key c)
    (certificate_chain c) (compression_algorithm c)
    (test_use_cached_channel c) b (uid c).
Definition set_uid (u : Z) (c : config) : config :=
  mk_config (verbose c) (url c) (http_headers c) (client_timeout c)
    (use_ssl c) (root_certificates c) (private_key c)
    (certificate_chain c) (compression_algorithm c)
    (test_use_cached_channel c) (use_cached_channel c) u.

(** [static struct option long_options[]], its four entries. *)
Definition long_options : list option_ :=
  [ mk_option "ssl" false 0;
    mk_option "root-certificates" true 1;
    mk_option "private-key" true 2;
    mk_option "certificate-chain" true 3 ].

Definition optstring : string := "vu:i:t:H:C:c:".

(** [std::string arg = optarg;] for an option that takes an argument
    ([getopt] never returns such an option without one). *)
Definition arg_of (r : ret) : string := default "" (optarg r).

(** [case 'H']. *)
Definition case_H (argv0 : string) (arg : string) (c : config)
  : run config :=
  header ← substr arg 0 (find arg ":");
  if (size header =? size arg) || String.eqb header ""
  then Usage argv0
         "HTTP header specified incorrectly. Must be formmated as 'Header:Value'"
  else
    v ← substr arg (size header + 1) npos;
    mret (set_http_headers (<[header := v]> (http_headers c)) c).

(** [case 'C']. *)
Definition case_C (argv0 : string) (algorithm_str : string) (c : config)
  : run config :=
  if String.eqb algorithm_str "deflate"
  then mret (set_compression_algorithm GRPC_COMPRESS_DEFLATE c)
  else if String.eqb algorithm_str "gzip"
  then mret (set_compression_algorithm GRPC_COMPRESS_GZIP c)
  else if String.eqb algorithm_str "none"
  then mret (set_compression_algorithm GRPC_COMPRESS_NONE c)
  else Usage argv0
         "unsupported compression algorithm specified... only 'deflate', 'gzip' and 'none' are supported.".

(** [case 'c']. *)
Definition case_c (argv0 : string) (arg : string) (c : config)
  : run config :=
  let c := set_test_use_cached_channel true c in
  if negb (find arg "false" =? npos)
  then mret (set_use_cached_channel false c)
  else if negb (find arg "true" =? npos)
  then mret (set_use_cached_channel true c)
  else Usage argv0 "need to specify true or false for use_cached_channel".

(** The body of the [while] loop: the [switch] over [opt]. *)
Definition switch (argv0 : string) (r : ret) (c : config) : run config :=
  let o := opt r in
  if o =? 0 then mret (set_use_ssl true c)
  else if o =? 1 then mret (set_root_certificates (arg_of r) c)
  else if o =? 2 then mret (set_private_key (arg_of r) c)
  else if o =? 3 then mret (set_certificate_chain (arg_of r) c)
  else if o =? chr "v" then mret (set_verbose true c)
  else if o =? chr "u" then mret (set_url (arg_of r) c)
  else if o =? chr "i" then
    u ← stoul (arg_of r); mret (set_uid u c)
  else if o =? chr "t" then
    t ← stoi (arg_of r); mret (set_client_timeout (to_uint32 t) c)
  else if o =? chr "H" then case_H argv0 (arg_of r) c
  else if o =? chr "C" then case_C argv0 (arg_of r) c
  else if o =? chr "c" then case_c argv0 (arg_of r) c
  else if o =? chr "?" then Usage argv0 ""
  else mret c.

Fixpoint loop (argv0 : string) (rs : list ret) (c : config) : run config :=
  match rs with
  | [] => mret c
  | r :: rs' => c' ← switch argv0 r c; loop argv0 rs' c'
  end.

(** The option loop of [main]. *)
Definition parse (argv : list string) : run config :=
  loop (hd "" argv) (getopt_long argv optstring long_options) initial.

(** *** The tensors sent and the checks on the result *)

Definition input0_data : list Z :=
  [
    151647; 198; 56568; 99491; 99794; 100717; 103954; 105484; 3837; 100431;
    105182; 102889; 100348; 108167; 3837; 35946; 102889; 101622; 57218; 56568;
    105051; 198; 100780; 105924; 510; 90476; 100; 62922; 5122; 70108;
    198; 74577; 112; 100820; 5122; 17; 17; 198; 90476; 100;
    33983; 5122; 118375; 99696; 112425; 5373; 110576; 100668; 5373; 108295;
    33108; 17340; 105292; 198; 4891; 244; 250; 99352; 5122; 109157;
    11; 100364; 99204; 99629; 107691; 58143; 101622; 93149; 30709; 44793;
    64205; 198; 33424; 101; 101738; 5122; 105905; 101070; 3837; 105905;
    101070; 3837; 111686; 100397; 107691; 198; 112735; 100470; 106466; 87752;
    104787; 104272; 198; 49602; 252; 58364; 30534; 101137; 100780; 105924;
    198; 6567; 233; 240; 99631; 104787; 100390; 104013; 5373; 57621;
    5373; 99602; 5373; 99599; 5373; 110569; 5373; 73218; 5373; 105358;
    5373; 101091; 78556; 108380; 198; 49602; 252; 58364; 43815; 100645;
    101137; 105492; 104773; 100376; 3837; 101137; 109157; 198; 6567; 233;
    240; 99631; 37029; 105439; 5373; 118711; 5373; 105905; 5373; 112883;
    9370; 110376; 715; 220; 113540; 112451; 101622; 17714; 2073; 102557;
    16872; 88774; 220; 102762; 112451; 99681; 100474; 99669; 17714; 2073;
    99681; 105666; 88774; 220; 103929; 104787; 110098; 36993; 99792; 36556;
    53393; 3837; 117242; 99165; 107971; 104336; 8997; 220; 112735; 100470;
    106466; 151647; 33108; 151648; 104186; 109504; 198; 88940; 121; 99475;
    55338; 151647; 33108; 151648; 102069; 9370; 109504; 198; 56568; 100645;
    100372; 101892; 100431; 9370; 102193; 43815; 71817; 105051; 1773; 62244;
    101068; 45181; 16872; 110590; 101051; 102349; 37945; 36587; 1036; 102557;
    16872; 105073; 3837; 35946; 99744; 99222; 101222; 32945; 28311; 220;
    100348; 108167; 115568; 101141; 99816; 103982; 103976; 198; 220; 100348;
    108167; 101909; 104130; 59074; 99821; 99417; 3837; 103046; 18493; 104130;
    59074; 102829; 1773; 99204; 99681; 100474; 99669; 102857; 3837; 100119;
    82894; 104130; 59074; 3837; 99663; 99466; 100638; 103985; 8997; 220;
    100348; 108167; 107204; 104158; 99681; 100474; 99669; 105633; 99424; 3837;
    99246; 101952; 99445; 30709; 100422; 104989; 26288; 102530; 3837; 99601;
    99445; 30709; 100422; 99486; 100348; 31207; 102073; 108001; 8997; 220;
    100348; 108167; 18493; 104130; 59074; 116391; 101243; 3837; 99999; 99392;
    99555; 104130; 59074; 104006; 44793; 64205; 3837; 100671; 101622; 56007;
    3837; 100348; 108167; 36993; 104584; 101883; 30709; 44793; 64205; 89012;
    101622; 8997; 220; 100348; 108167; 99392; 99555; 104130; 59074; 104006;
    44793; 64205; 8997; 105048; 105267; 87752; 105051; 19793; 26355; 3837;
    45912; 100348; 31207; 102073; 104283; 75768; 510; 89982; 63836; 5122;
    104044; 104130; 59074; 108432; 101037; 94432; 220; 100348; 108167; 5122;
    42140; 99757; 102557; 101373; 104329; 3837; 104044; 104130; 59074; 101109;
    100416; 8997; 89982; 63836; 5122; 105043; 100165; 94432; 220; 100348;
    108167; 5122; 35946; 99882; 100348; 108167; 3837; 20412; 104130; 59074;
    9370; 99821; 99417; 1773; 97611; 104559; 20412; 109270; 100147; 34718;
    101318; 90395; 89012; 102464; 99553; 85106; 116211; 8997; 89982; 63836;
    5122; 104888; 102328; 198; 220; 100348; 108167; 5122; 102557; 16872;
    118271; 117070; 8997; 89982; 63836; 5122; 107733; 100625; 101037; 94432;
    220; 100348; 108167; 5122; 100625; 11319; 110985; 114056; 3837; 100707;
    65676; 20412; 99569; 44290; 28404; 17992; 94432; 89982; 63836; 5122;
    107733; 104730; 59074; 103976; 101037; 198; 220; 100348; 108167; 5122;
    49187; 99608; 24562; 97084; 102534; 104730; 59074; 102207; 34187; 52510;
    99811; 3837; 99744; 52183; 99601; 100007; 34187; 8997; 89982; 63836;
    5122; 56568; 104067; 106428; 198; 220; 100348; 108167; 5122; 104786;
    101254; 109270; 15946; 37945; 56007; 104139; 111728; 102557; 101373; 101037;
    94432; 89982; 63836; 5122; 99445; 30709; 100422; 198; 220; 100348;
    108167; 5122; 102557; 16872; 100720; 99445; 26288; 102530; 101037; 11319;
    42411; 103933; 97611; 108001; 6313; 198; 151648 ].

Definition input1_data : list Z := replicate 16 1.

(** [ValidateShapeAndDatatype(name, result)]. *)
Definition ValidateShapeAndDatatype `{InferResultOps R}
           (name : string) (result : R) : run unit :=
  let '(e, shape) := Shape result name in
  FAIL_IF_ERR e ("unable to get shape for '" +:+ name +:+ "'");;
  if negb (Z.of_nat (length shape) =? 2)
     || negb (nth 0 shape 0 =? 1) || negb (nth 1 shape 0 =? 16)
  then Exit 1 ["error: received incorrect shapes for '" +:+ name +:+ "'"]
  else
    let '(e, datatype) := Datatype result name in
    FAIL_IF_ERR e ("unable to get datatype for '" +:+ name +:+ "'");;
    if negb (String.eqb datatype "INT32")
    then Exit 1 ["error: received incorrect datatype for '" +:+ name
                 +:+ "': " +:+ datatype]
    else mret tt.

(** The comparison loop, [for (size_t i = 0; i < 16; ++i)], from index
    [i] with [n] iterations left. *)
Fixpoint compare_outputs (output0_data output1_data : list Byte.byte)
         (i n : nat) : run unit :=
  match n with
  | O => mret tt
  | S n' =>
      if negb (nth i input0_data 0 + nth i input1_data 0
               =? load_int32 output0_data i)
      then Exit 1 ["error: incorrect sum"]
      else if negb (nth i input0_data 0 - nth i input1_data 0
                    =? load_int32 output1_data i)
      then Exit 1 ["error: incorrect difference"]
      else compare_outputs output0_data output1_data (S i) n'
  end.

(** [main] from the validation of the result to the line that prints
    ["PASS : Infer"], which a returned [tt] stands for.  What the
    program writes to [std::cout] on the way (the sums and differences,
    the response, the statistics) is left out; none of it can fail. *)
Definition validate `{InferResultOps R} (results_ptr : R) : run unit :=
  ValidateShapeAndDatatype "OUTPUT0" results_ptr;;
  ValidateShapeAndDatatype "OUTPUT1" results_ptr;;
  let '(e0, output0_data) := RawData results_ptr "OUTPUT0" in
  FAIL_IF_ERR e0 "unable to get result data for 'OUTPUT0'";;
  if negb (Z.of_nat (length output0_data) =? 64)
  then Exit 1 ["error: received incorrect byte size for 'OUTPUT0': "
               +:+ pretty (length output0_data)]
  else
    let '(e1, output1_data) := RawData results_ptr "OUTPUT1" in
    FAIL_IF_ERR e1 "unable to get result data for 'OUTPUT1'";;
    if negb (Z.of_nat (length output1_data) =? 64)
    then Exit 1 ["error: received incorrect byte size for 'OUTPUT1': "
                 +:+ pretty (length output1_data)]
    else compare_outputs output0_data output1_data 0 16.

(** The two ways this part of [main] ends. *)
Definition passes_or_exits_1 (m : run unit) : Prop :=
  m = Ret tt \/ exists lines, m = Exit 1 lines.

(** What the program requires of one output tensor before it compares
    the values: its shape, its datatype, and the size of its buffer. *)
Definition output_as_expected `{InferResultOps R} (r : R) (name : string)
  : Prop :=
  fst (Shape r name) = Success /\ snd (Shape r name) = [1; 16] /\
  fst (Datatype r name) = Success /\ snd (Datatype r name) = "INT32" /\
  fst (RawData r name) = Success /\
  Z.of_nat (length (snd (RawData r name))) = 64.

(** The values the program requires at index [i]. *)
Definition values_as_expected `{InferResultOps R} (r : R) (i : nat) : Prop :=
  load_int32 (snd (RawData r "OUTPUT0")) i
    = nth i input0_data 0 + nth i input1_data 0 /\
  load_int32 (snd (RawData r "OUTPUT1")) i
    = nth i input0_data 0 - nth i input1_data 0.

End SyncClient.

(** ** The asynchronous client, [simple_grpc_async_infer_client.cc] *)

Module AsyncClient.
Import Common Getopt Client.

(** *** The option loop *)

Definition tab : string := String "009"%char EmptyString.

Definition Usage {A} (argv0 : string) (msg : string) : run A :=
  Exit 1
    ((if String.eqb msg "" then [] else ["error: " +:+ msg]) ++
     [ "Usage: " +:+ argv0 +:+ " [options]";
       tab +:+ "-v";
       tab +:+ "-u <URL for inference service>";
       tab +:+ "-t <client timeout in microseconds>";
       tab +:+ "-H <HTTP header>";
       "";
       "For -H, header must be 'Header:Value'. May be given multiple times." ]).

Record config : Type := mk_config {
  verbose : bool;
  uid : Z;
  url : string;
  http_headers : gmap string string;
  client_timeout : Z;
}.

Definition initial : config :=
  {| verbose := true; uid := 1; url := "localhost:8001";
     http_headers := ∅; client_timeout := 0 |}.

Definition optstring : string := "vu:i:t:H:".

Definition arg_of (r : ret) : string := default "" (optarg r).

(** [case 'H']: no check that the argument holds a [':']. *)
Definition case_H (arg : string) (c : config) : run config :=
  header ← substr arg 0 (find arg ":");
  v ← substr arg (size header + 1) npos;
  mret (mk_config (verbose c) (uid c) (url c)
          (<[header := v]> (http_headers c)) (client_timeout c)).

Definition switch (argv0 : string) (r : ret) (c : config) : run config :=
  let o := opt r in
  if o =? chr "v" then
    mret (mk_config true (uid c) (url c) (http_headers c) (client_timeout c))
  else if o =? chr "u" then
    mret (mk_config (verbose c) (uid c) (arg_of r) (http_headers c)
            (client_timeout c))
  else if o =? chr "i" then
    u ← stoul (arg_of r);
    mret (mk_config (verbose c) u (url c) (http_headers c) (client_timeout c))
  else if o =? chr "t" then
    t ← stoi (arg_of r);
    mret (mk_config (verbose c) (uid c) (url c) (http_headers c)
            (to_uint32 t))
  else if o =? chr "H" then case_H (arg_of r) c
  else if o =? chr "?" then Usage argv0 ""
  else mret c.

Fixpoint loop (argv0 : string) (rs : list ret) (c : config) : run config :=
  match rs with
  | [] => mret c
  | r :: rs' => c' ← switch argv0 r c; loop argv0 rs' c'
  end.

Definition parse (argv : list string) : run config :=
  loop (hd "" argv) (getopt argv optstring) initial.

(** *** The threads

    After the inputs are built, [main] submits [repeat_cnt] requests
    with [AsyncInfer], waits on the condition variable until
    [done_cnt >= repeat_cnt], compares the two counts, submits one more
    request whose callback defers the result to the main thread, waits
    until [callback_invoked], and reads [result_placeholder].  The
    client library runs each callback on a thread of its own.  The
    model interleaves the steps of the main thread and of the callback
    invocations; the library's part (when it invokes which callback,
    with which result, and what [AsyncInfer] returns) is left open,
    except that a callback runs after the [AsyncInfer] call that
    registered it, which is one step of [main].  The source sets
    [repeat_cnt] to 1; the model takes any value [n] of a [size_t]. *)

(** A request: the one submitted by iteration [i] of the loop, or the
    one submitted after the first wait. *)
Inductive handle : Type :=
| Counted (i : Z)
| Deferred.

#[export] Instance handle_eq_dec : EqDecision handle.
Proof. solve_decision. Defined.

Inductive tid : Type :=
| Main
| Cb (k : nat).

#[export] Instance tid_eq_dec : EqDecision tid.
Proof. solve_decision. Defined.

(** Where a callback invocation stands: before its [lock_guard], before
    the first and the second statement under the lock, at the end of
    the guarded block, before [cv.notify_all()], and returned. *)
Inductive cb_pc : Type :=
| CbLock | CbFirst | CbSecond | CbUnlock | CbNotify | CbDone.

(** Where [cv.wait(lk, pred)] inside its [unique_lock] block stands:
    acquiring the lock, testing [pred] with the lock held, blocked on
    the condition variable with the lock released, woken and
    re-acquiring the lock, and returned with the lock still held. *)
Inductive wait_pc : Type :=
| WLock | WTest | WBlocked | WWoken | WUnlock.

Inductive main_pc : Type :=
| MSubmit (i : Z)
| MWaitAll (w : wait_pc)
| MCompare
| MSubmitDeferred
| MWaitOne (w : wait_pc)
| MRead
| MDone.

(** The process: running, ended by [exit] or by the return of [main],
    or broken by a read through a null [result_placeholder]. *)
Inductive proc_status : Type :=
| Running
| Exited (code : Z)
| Faulted.

Section Threads.
Context {R : Type} `{InferResultOps R}.

Record callback : Type :=
  mk_callback { cb_handle : handle; cb_result : R; cb_at : cb_pc }.

Record state : Type := mk_state {
  mtx : option tid;
  repeat_cnt : Z;
  done_cnt : Z;
  callback_invoked : bool;
  result_placeholder : option R;
  pc : main_pc;
  callbacks : list callback;
  submitted : list handle;
  cout : list string;
  cerr : list string;
  status : proc_status;
}.

Definition set_mtx (m : option tid) (s : state) : state :=
  mk_state m (repeat_cnt s) (done_cnt s) (callback_invoked s)
    (result_placeholder s) (pc s) (callbacks s) (submitted s) (cout s)
    (cerr s) (status s).
Definition set_done_cnt (d : Z) (s : state) : state :=
  mk_state (mtx s) (repeat_cnt s) d (callback_invoked s)
    (result_placeholder s) (pc s) (callbacks s) (submitted s) (cout s)
    (cerr s) (status s).
Definition set_callback_invoked (b : bool) (s : state) : state :=
  mk_state (mtx s) (repeat_cnt s) (done_cnt s) b
    (result_placeholder s) (pc s) (callbacks s) (submitted s) (cout s)
    (cerr s) (status s).
Definition set_result_placeholder (r : option R) (s : state) : state :=
  mk_state (mtx s) (repeat_cnt s) (done_cnt s) (callback_invoked s)
    r (pc s) (callbacks s) (submitted s) (cout s) (cerr s) (status s).
Definition set_pc (p : main_pc) (s : state) : state :=
  mk_state (mtx s) (repeat_cnt s) (done_cnt s) (callback_invoked s)
    (result_placeholder s) p (callbacks s) (submitted s) (cout s)
    (cerr s) (status s).
Definition set_callbacks (l : list callback) (s : state) : state :=
  mk_state (mtx s) (repeat_cnt s) (done_cnt s) (callback_invoked s)
    (result_placeholder s) (pc s) l (submitted s) (cout s) (cerr s)
    (status s).
Definition set_submitted (l : list handle) (s : state) : state :=
  mk_state (mtx s) (repeat_cnt s) (done_cnt s) (callback_invoked s)
    (result_placeholder s) (pc s) (callbacks s) l (cout s) (cerr s)
    (status s).
Definition print (line : string) (s : state) : state :=
  mk_state (mtx s) (repeat_cnt s) (done_cnt s) (callback_invoked s)
    (result_placeholder s) (pc s) (callbacks s) (submitted s)
    (cout s ++ [line]) (cerr s) (status s).
Definition eprint (line : string) (s : state) : state :=
  mk_state (mtx s) (repeat_cnt s) (done_cnt s) (callback_invoked s)
    (result_placeholder s) (pc s) (callbacks s) (submitted s) (cout s)
    (cerr s ++ [line]) (status s).
Definition set_status (st : proc_status) (s : state) : state :=
  mk_state (mtx s) (repeat_cnt s) (done_cnt s) (callback_invoked s)
    (result_placeholder s) (pc s) (callbacks s) (submitted s) (cout s)
    (cerr s) st.

(** [exit(code)]. *)
Definition exit (code : Z) (s : state) : state :=
  set_status (Exited code) s.

(** [main] at the declarations of [mtx], [cv], [repeat_cnt] and
    [done_cnt]; [callback_invoked] and [result_placeholder] hold the
    values their declarations give them. *)
Definition init (n : Z) : state :=
  {| mtx := None; repeat_cnt := n; done_cnt := 0;
     callback_invoked := false; result_placeholder := None;
     pc := MSubmit 0; callbacks := []; submitted := [];
     cout := []; cerr := []; status := Running |}.

(** [size_t repeat_cnt = 1;] *)
Definition repeat_cnt_main : Z := 1.

(** [x++] on a [size_t]. *)
Definition incr (x : Z) : Z := (x + 1) mod 2 ^ 64.

(** [std::mutex::lock] by thread [t]: possible when the mutex is
    free. *)
Definition lock (t : tid) (s : state) : option state :=
  match mtx s with
  | None => Some (set_mtx (Some t) s)
  | Some _ => None
  end.

Definition unlock (s : state) : state := set_mtx None s.

(** [cv.notify_all()]: the main thread is the only one that ever
    waits on [cv]. *)
Definition notify_all (s : state) : state :=
  match pc s with
  | MWaitAll WBlocked => set_pc (MWaitAll WWoken) s
  | MWaitOne WBlocked => set_pc (MWaitOne WWoken) s
  | _ => s
  end.

(** A step of [{ std::unique_lock lk(mtx); cv.wait(lk, pred); }]:
    [at_] places a [wait_pc] in the program, [next] follows the
    block. *)
Definition wait_step (pred : bool) (w : wait_pc)
           (at_ : wait_pc -> main_pc) (next : main_pc) (s : state)
  : option state :=
  match w with
  | WLock => set_pc (at_ WTest) <$> lock Main s
  | WTest =>
      if pred then Some (set_pc (at_ WUnlock) s)
      else Some (set_pc (at_ WBlocked) (unlock s))
  | WBlocked => None
  | WWoken => set_pc (at_ WTest) <$> lock Main s
  | WUnlock => Some (set_pc next (unlock s))
  end.

(** [FAIL_IF_ERR(client->AsyncInfer(...), "unable to run model")],
    where [ret] is what [AsyncInfer] returns. *)
Definition submit (ret : Error) (h : handle) (next : main_pc)
           (s : state) : state :=
  match ret with
  | Success => set_pc next (set_submitted (submitted s ++ [h]) s)
  | Err m => exit 1 (eprint ("error: unable to run model: " +:+ m) s)
  end.

(** A step of the main thread. *)
Definition main_step (ret : Error) (s : state) : option state :=
  match pc s with
  | MSubmit i =>
      if i <? repeat_cnt s
      then Some (submit ret (Counted i) (MSubmit (incr i)) s)
      else Some (set_pc (MWaitAll WLock) s)
  | MWaitAll w =>
      wait_step (repeat_cnt s <=? done_cnt s) w MWaitAll MCompare s
  | MCompare =>
      if done_cnt s =? repeat_cnt s
      then Some (set_pc MSubmitDeferred (print "All done" s))
      else Some (exit 1
                   (eprint ("Done cnt: " +:+ pretty (done_cnt s)
                            +:+ " does not match repeat cnt: "
                            +:+ pretty (repeat_cnt s)) s))
  | MSubmitDeferred =>
      Some (submit ret Deferred (MWaitOne WLock) s)
  | MWaitOne w =>
      wait_step (callback_invoked s) w MWaitOne MRead s
  | MRead =>
      let s := print "Getting results from deferred response" s in
      match result_placeholder s with
      | None => Some (set_status Faulted s)
      | Some r =>
          if IsOk (RequestStatus r) then Some (set_pc MDone s)
          else Some (exit 1
                       (eprint ("error: Inference failed: "
                                +:+ Message (RequestStatus r)) s))
      end
  | MDone =>
      Some (exit 0 (print "PASS : Async Infer" s))
  end.

Definition at_pc (p : cb_pc) (c : callback) : callback :=
  mk_callback (cb_handle c) (cb_result c) p.

Definition set_cb (k : nat) (c : callback) (s : state) : state :=
  set_callbacks (<[k := c]> (callbacks s)) s.

(** A step of callback invocation [k]. *)
Definition cb_step (k : nat) (s : state) : option state :=
  c ← callbacks s !! k;
  match cb_at c with
  | CbLock => set_cb k (at_pc CbFirst c) <$> lock (Cb k) s
  | CbFirst =>
      match cb_handle c with
      | Counted i =>
          Some (set_cb k (at_pc CbSecond c)
                  (set_done_cnt (incr (done_cnt s))
                     (print ("Callback no." +:+ pretty i
                             +:+ " is called") s)))
      | Deferred =>
          Some (set_cb k (at_pc CbSecond c)
                  (set_callback_invoked true s))
      end
  | CbSecond =>
      match cb_handle c with
      | Counted i =>
          if IsOk (RequestStatus (cb_result c))
          then Some (set_cb k (at_pc CbUnlock c) s)
          else Some (exit 1
                       (eprint ("error: Inference failed: "
                                +:+ Message (RequestStatus (cb_result c)))
                          s))
      | Deferred =>
          Some (set_cb k (at_pc CbUnlock c)
                  (set_result_placeholder (Some (cb_result c)) s))
      end
  | CbUnlock => Some (set_cb k (at_pc CbNotify c) (unlock s))
  | CbNotify => Some (set_cb k (at_pc CbDone c) (notify_all s))
  | CbDone => None
  end.

(** The library invokes the callback of a submitted request. *)
Definition deliver (h : handle) (r : R) (s : state) : option state :=
  if bool_decide (h ∈ submitted s)
  then Some (set_callbacks (callbacks s ++ [mk_callback h r CbLock]) s)
  else None.

(** A wake-up of the waiting thread without a notification, which
    [std::condition_variable::wait] allows. *)
Definition spurious (s : state) : option state :=
  match pc s with
  | MWaitAll WBlocked => Some (set_pc (MWaitAll WWoken) s)
  | MWaitOne WBlocked => Some (set_pc (MWaitOne WWoken) s)
  | _ => None
  end.

Inductive label : Type :=
| LMain (ret : Error)
| LCallback (k : nat)
| LDeliver (h : handle) (r : R)
| LSpurious.

Definition step (l : label) (s : state) : option state :=
  match status s with
  | Running =>
      match l with
      | LMain ret => main_step ret s
      | LCallback k => cb_step k s
      | LDeliver h r => deliver h r s
      | LSpurious => spurious s
      end
  | _ => None
  end.

(** The state after a schedule, when every step of it is possible. *)
Fixpoint exec (tr : list label) (s : state) : option state :=
  match tr with
  | [] => Some s
  | l :: tr' => s' ← step l s; exec tr' s'
  end.

(** The states of the program whose [repeat_cnt] is [n]. *)
Inductive reachable (n : Z) : state -> Prop :=
| reach_init : reachable n (init n)
| reach_step s l s' :
    reachable n s -> step l s = Some s' -> reachable n s'.

(** The five steps of one callback invocation. *)
Definition whole_callback (k : nat) : list label :=
  replicate 5 (LCallback k).

(** The schedule in which the library completes the requests of
    [cs], in that order and with those results, each callback
    running to its end before the next starts; [k] invocations have
    been started before. *)
Fixpoint complete_all (k : nat) (cs : list (Z * R)) : list label :=
  match cs with
  | [] => []
  | (i, r) :: cs' =>
      LDeliver (Counted i) r :: whole_callback k ++ complete_all (S k) cs'
  end.

(** The main thread submits [n] requests, all accepted, and leaves
    the loop. *)
Definition submit_all (n : Z) : list label :=
  replicate (S (Z.to_nat n)) (LMain Success).

Definition is_deliver (l : label) : bool :=
  match l with LDeliver _ _ => true | _ => false end.

(** [main] inside the first wait and not yet returned from it. *)
Definition waiting_all (s : state) : Prop :=
  pc s = MWaitAll WLock \/ pc s = MWaitAll WTest \/
  pc s = MWaitAll WBlocked \/ pc s = MWaitAll WWoken.

Definition waiting_one (s : state) : Prop :=
  pc s = MWaitOne WLock \/ pc s = MWaitOne WTest \/
  pc s = MWaitOne WBlocked \/ pc s = MWaitOne WWoken.

(** A callback invocation between its [lock_guard] and the end of
    the guarded block. *)
Definition in_critical (p : cb_pc) : bool :=
  match p with
  | CbFirst | CbSecond | CbUnlock => true
  | _ => false
  end.

(** The main thread between acquiring and releasing [lk]. *)
Definition main_in_critical (p : main_pc) : bool :=
  match p with
  | MWaitAll WTest | MWaitAll WUnlock
  | MWaitOne WTest | MWaitOne WUnlock => true
  | _ => false
  end.

(** The invocations whose [done_cnt++] has run. *)
Definition counted (c : callback) : bool :=
  match cb_handle c, cb_at c with
  | Counted _, (CbSecond | CbUnlock | CbNotify | CbDone) => true
  | _, _ => false
  end.

(** How many invocations have run their [done_cnt++]. *)
Fixpoint completions (l : list callback) : Z :=
  match l with
  | [] => 0
  | c :: l' => (if counted c then 1 else 0) + completions l'
  end.

(** Mutual exclusion: the threads inside a critical section are
    exactly the owner of [mtx]. *)
Definition mutex_inv (s : state) : Prop :=
  (forall k c, callbacks s !! k = Some c ->
               (in_critical (cb_at c) = true <-> mtx s = Some (Cb k))) /\
  (main_in_critical (pc s) = true <-> mtx s = Some Main) /\
  (forall k, mtx s = Some (Cb k) -> (k < length (callbacks s))%nat).

(** The requests of the loop's first [i] iterations. *)
Definition requests (i : Z) : list handle := Counted <$> seqZ 0 i.

(** What has been submitted at each point of [main]. *)
Definition program_order_inv (n : Z) (s : state) : Prop :=
  repeat_cnt s = n /\
  match pc s with
  | MSubmit i => 0 <= i <= n /\ submitted s = requests i
  | MWaitAll _ | MCompare | MSubmitDeferred => submitted s = requests n
  | MWaitOne _ | MRead | MDone =>
      submitted s = (requests n ++ [Deferred])%list
  end.

(** The library invokes callbacks of submitted requests only. *)
Definition handles_inv (s : state) : Prop :=
  forall k c, callbacks s !! k = Some c -> cb_handle c ∈ submitted s.

(** An invocation of a loop request's callback that has incremented
    [done_cnt] and has not yet called [cv.notify_all()]. *)
Definition notify_due (c : callback) : bool :=
  match cb_handle c, cb_at c with
  | Counted _, (CbSecond | CbUnlock | CbNotify) => true
  | _, _ => false
  end.

(** An invocation of the deferred request's callback between its two
    assignments. *)
Definition between_assignments (c : callback) : bool :=
  match cb_handle c, cb_at c with
  | Deferred, CbSecond => true
  | _, _ => false
  end.

(** [result_placeholder] holds the result that the library passed to
    an invocation of the deferred request's callback. *)
Definition slot_filled (s : state) : Prop :=
  exists k c, callbacks s !! k = Some c /\ cb_handle c = Deferred /\
              result_placeholder s = Some (cb_result c).

(** [main] from the return of the second wait on. *)
Definition after_wait_one (p : main_pc) : bool :=
  match p with
  | MWaitOne WUnlock | MRead | MDone => true
  | _ => false
  end.

(** [done_cnt] counts the invocations that have run their increment. *)
Definition count_inv (s : state) : Prop :=
  done_cnt s = completions (callbacks s) mod 2 ^ 64.

(** When the first wait has returned, its condition holds. *)
Definition returned_inv (s : state) : Prop :=
  pc s = MWaitAll WUnlock -> repeat_cnt s <= done_cnt s.

(** No wake-up is lost: while the main thread is blocked in the first
    wait with its condition already true, some callback invocation
    still has its [notify_all] ahead. *)
Definition wakeup_inv (s : state) : Prop :=
  status s = Running -> pc s = MWaitAll WBlocked ->
  repeat_cnt s <= done_cnt s ->
  exists k c, callbacks s !! k = Some c /\ notify_due c = true.

(** Once [callback_invoked] is set, either the setting invocation
    stands between its two assignments, or [result_placeholder] is
    filled. *)
Definition slot_inv (s : state) : Prop :=
  callback_invoked s = true ->
  (exists k c, callbacks s !! k = Some c /\ between_assignments c = true) \/
  slot_filled s.

(** From the return of the second wait on, the flag is set and the
    slot is filled. *)
Definition read_inv (s : state) : Prop :=
  after_wait_one (pc s) = true ->
  callback_invoked s = true /\ slot_filled s.

(** The handles of the loop requests whose callback was invoked. *)
Definition counted_handles (l : list callback) : list handle :=
  filter (fun h => h <> Deferred) (cb_handle <$> l).

(** Every invocation the library has started has returned. *)
Definition quiescent (s : state) : Prop :=
  forall k c, callbacks s !! k = Some c -> cb_at c = CbDone.

(** Blocked for good: the main thread inside the first wait with its
    condition false and no callback under way. *)
Definition stuck (s : state) : Prop :=
  waiting_all s /\ status s = Running /\ quiescent s /\
  done_cnt s < repeat_cnt s.

(** The steps an invocation that has run its increment still has to
    take. *)
Definition remaining (p : cb_pc) : nat :=
  match p with
  | CbLock => 5 | CbFirst => 4 | CbSecond => 3 | CbUnlock => 2
  | CbNotify => 1 | CbDone => 0
  end.

Fixpoint pending_steps (l : list callback) : nat :=
  match l with
  | [] => 0
  | c :: l' => remaining (cb_at c) + pending_steps l'
  end.

(** Every invocation has run its increment and carries a successful
    result. *)
Definition all_counted_ok (s : state) : Prop :=
  forall k c, callbacks s !! k = Some c ->
              counted c = true /\ IsOk (RequestStatus (cb_result c)) = true.

(** A step of the program itself, not of the library. *)
Definition is_program_step (l : label) : bool :=
  match l with LMain _ | LCallback _ => true | _ => false end.

(** The transport keeps its contract when it completes no request
    twice. *)
Definition once_each (s : state) : Prop :=
  NoDup (cb_handle <$> callbacks s).

End Threads.

Arguments callback R : clear implicits.
Arguments state R : clear implicits.
Arguments label R : clear implicits.

End AsyncClient.

(** ** Runs of the asynchronous client with [repeat_cnt = 1] *)

Module Scenarios.
Import Common Client AsyncClient.

Definition ok : response := mk_response Success [].

Definition failed : response :=
  mk_response (Err "Deadline Exceeded") [].

(** The state a schedule leads to from the start of the program. *)
Definition after (tr : list (label response)) : state response :=
  default (init repeat_cnt_main) (exec tr (init repeat_cnt_main)).

(** The request is submitted and never completed; [main] locks, tests
    its condition and blocks. *)
Definition never_completed : list (label response) :=
  submit_all repeat_cnt_main ++ [LMain Success; LMain Success].




(** [main] blocks first; then the callback of the request runs its
    increment and still holds the mutex. *)
Definition completed_while_blocked : list (label response) :=
  never_completed ++ [LDeliver (Counted 0) ok; LCallback 0; LCallback 0].

(** [main] blocks first; then the request completes with a failure and
    its callback runs up to its check of the status. *)
Definition failed_while_blocked : list (label response) :=
  never_completed
    ++ [LDeliver (Counted 0) failed; LCallback 0; LCallback 0; LCallback 0].

(** The request completes with a failure before [main] starts its
    wait. *)
Definition failed_before_wait : list (label response) :=
  submit_all repeat_cnt_main
    ++ [LDeliver (Counted 0) failed; LCallback 0; LCallback 0; LCallback 0].

(** The library completes the one request twice. *)
Definition completed_twice : list (label response) :=
  submit_all repeat_cnt_main
    ++ LDeliver (Counted 0) ok :: whole_callback 0
    ++ LDeliver (Counted 0) ok :: whole_callback 1.

(** The whole program up to the read of the deferred result [r]. *)
Definition up_to_read (r : response) : list (label response) :=
  submit_all repeat_cnt_main ++ complete_all 0 [(0, ok)]
    ++ replicate 5 (LMain Success)
    ++ LDeliver Deferred r :: whole_callback 1
    ++ replicate 3 (LMain Success).

(** The bytes of an [int32_t] in memory. *)
Definition store_int32 (v : Z) : list Byte.byte :=
  (fun k => default Byte.x00
              (Byte.of_N (Z.to_N (Z.land (Z.shiftr (v mod 2 ^ 32) (8 * k))
                                         255))))
    <$> [0; 1; 2; 3].

Definition int32_tensor (vals : list Z) : tensor :=
  mk_tensor [1; 16] "INT32" (vals ≫= store_int32).

(** The answer of the model the synchronous client expects: sums in
    OUTPUT0, differences in OUTPUT1. *)
Definition sums_and_differences : response :=
  mk_response Success
    [ ("OUTPUT0", int32_tensor ((fun x => x + 1) <$> take 16 SyncClient.input0_data));
      ("OUTPUT1", int32_tensor ((fun x => x - 1) <$> take 16 SyncClient.input0_data)) ].

(** The same answer with the two tensors exchanged. *)
Definition outputs_exchanged : response :=
  mk_response Success
    [ ("OUTPUT1", int32_tensor ((fun x => x + 1) <$> take 16 SyncClient.input0_data));
      ("OUTPUT0", int32_tensor ((fun x => x - 1) <$> take 16 SyncClient.input0_data)) ].

End Scenarios.

(** * Properties *)

Import Common Getopt Client.

(** ** Strings *)

Section StringFacts.

Lemma append_nil (t : string) : "" +:+ t = t.
Proof. reflexivity. Qed.

Lemma append_cons (c : ascii) (s t : string) :
  String c s +:+ t = String c (s +:+ t).
Proof. reflexivity. Qed.

Lemma substring_whole (s : string) :
  String.substring 0 (String.length s) s = s.
Proof. induction s as [|c s IH]; simpl; [done | by rewrite IH]. Qed.

Lemma substring_app_l (h t : string) :
  String.substring 0 (String.length h) (h +:+ t) = h.
Proof.
  induction h as [|c h IH]; simpl.
  - by destruct t.
  - by rewrite IH.
Qed.

Lemma substring_app_r (h t : string) (m : nat) :
  String.substring (String.length h) m (h +:+ t) = String.substring 0 m t.
Proof. induction h as [|c h IH]; simpl; [done | apply IH]. Qed.

Lemma length_append (h t : string) :
  String.length (h +:+ t) = (String.length h + String.length t)%nat.
Proof. induction h as [|c h IH]; simpl; [done | by rewrite IH]. Qed.

Lemma prefix_colon (b : ascii) (s : string) :
  String.prefix ":" (String b s) = bool_decide (b = ":"%char).
Proof.
  cbn [String.prefix]. destruct (Ascii.ascii_dec ":" b) as [<-|Hne].
  - rewrite bool_decide_eq_true_2 by done. by destruct s.
  - rewrite bool_decide_eq_false_2; [done | congruence].
Qed.

Lemma index_0_cons (pat : string) (b : ascii) (s : string) :
  String.index 0 pat (String b s) =
  if String.prefix pat (String b s) then Some 0%nat
  else match String.index 0 pat s with
       | Some n => Some (S n)
       | None => None
       end.
Proof. reflexivity. Qed.

(** A string without [':'] has no position for it. *)
Lemma index_no_colon (s : string) :
  ":"%char ∉ list_ascii_of_string s -> String.index 0 ":" s = None.
Proof.
  induction s as [|b s IH]; intros Hno; [done |].
  cbn [list_ascii_of_string] in Hno.
  apply not_elem_of_cons in Hno as [Hb Hs].
  rewrite index_0_cons, prefix_colon, bool_decide_eq_false_2 by congruence.
  by rewrite IH.
Qed.

(** The first [':'] of ["h:v"] stands right after [h] when [h] has
    none. *)
Lemma index_colon_app (h v : string) :
  ":"%char ∉ list_ascii_of_string h ->
  String.index 0 ":" (h +:+ String ":" v) = Some (String.length h).
Proof.
  induction h as [|b h IH]; intros Hno.
  - by rewrite append_nil, index_0_cons, prefix_colon, bool_decide_eq_true_2.
  - cbn [list_ascii_of_string] in Hno.
    apply not_elem_of_cons in Hno as [Hb Hs].
    rewrite append_cons, index_0_cons, prefix_colon, bool_decide_eq_false_2 by congruence.
    by rewrite IH.
Qed.

Lemma find_no_colon (s : string) :
  ":"%char ∉ list_ascii_of_string s -> find s ":" = npos.
Proof. intros Hno. unfold find. by rewrite index_no_colon. Qed.

Lemma substr_whole (s : string) :
  size s <= size_max -> substr s 0 npos = Ret s.
Proof.
  intros Hle. unfold substr, npos, size in *.
  destruct (Z.ltb_spec (Z.of_nat (String.length s)) 0); [lia |].
  rewrite Z.sub_0_r, Z.min_r by lia.
  by rewrite Nat2Z.id, substring_whole.
Qed.

Lemma substr_past_end (s : string) (n : Z) :
  substr s (size s + 1) n = Throw (out_of_range "basic_string::substr").
Proof.
  unfold substr.
  destruct (Z.ltb_spec (size s) (size s + 1)); [done | lia].
Qed.

(** The two [substr] calls of [case 'H'] on ["h:v"]. *)
Lemma substr_header (h v : string) :
  ":"%char ∉ list_ascii_of_string h ->
  substr (h +:+ String ":" v) 0 (find (h +:+ String ":" v) ":") = Ret h.
Proof.
  intros Hno. unfold find, substr, size.
  rewrite index_colon_app by done.
  rewrite length_append. cbn [String.length].
  destruct (Z.ltb_spec (Z.of_nat (String.length h + S (String.length v))) 0);
    [lia |].
  rewrite Z.min_l by lia.
  by rewrite Nat2Z.id, substring_app_l.
Qed.

Lemma substr_value (h v : string) :
  size (h +:+ String ":" v) <= size_max ->
  substr (h +:+ String ":" v) (size h + 1) npos = Ret v.
Proof.
  unfold substr, size, npos, size_max. rewrite length_append.
  cbn [String.length]. intros Hle.
  destruct (Z.ltb_spec (Z.of_nat (String.length h + S (String.length v)))
              (Z.of_nat (String.length h) + 1)); [lia |].
  rewrite Z.min_r by lia.
  replace (Z.to_nat (Z.of_nat (String.length h) + 1))
    with (String.length (h +:+ ":")) by (rewrite length_append; simpl; lia).
  replace (h +:+ String ":" v) with ((h +:+ ":") +:+ v).
  2:{ clear. induction h as [|c h IH]; [done |].
      by rewrite !append_cons, IH. }
  rewrite substring_app_r.
  replace (Z.to_nat _) with (String.length v) by lia.
  by rewrite substring_whole.
Qed.

End StringFacts.

(** ** The result validation of the synchronous client *)

Section SyncValidation.
Context {R : Type} `{InferResultOps R}.
Import SyncClient.

Lemma shape_check (shape : list Z) :
  negb (Z.of_nat (length shape) =? 2)
    || negb (nth 0 shape 0 =? 1) || negb (nth 1 shape 0 =? 16) = false
  <-> shape = [1; 16].
Proof.
  split.
  - intros Hc. apply orb_false_elim in Hc as [Hc H16].
    apply orb_false_elim in Hc as [Hlen H1].
    apply negb_false_iff, Z.eqb_eq in Hlen, H1, H16.
    destruct shape as [|a [|b [|c l]]]; simpl in *; try lia.
    by subst.
  - by intros ->.
Qed.

Lemma ValidateShapeAndDatatype_ok (name : string) (r : R) :
  ValidateShapeAndDatatype name r = Ret tt <->
  fst (Shape r name) = Success /\ snd (Shape r name) = [1; 16] /\
  fst (Datatype r name) = Success /\ snd (Datatype r name) = "INT32".
Proof.
  unfold ValidateShapeAndDatatype.
  destruct (Shape r name) as [e shape], (Datatype r name) as [e' dt].
  pose proof (shape_check shape) as Hs. simpl fst; simpl snd.
  destruct e as [|m]; simpl.
  2:{ split; [done | by intros [? _]]. }
  destruct (negb _ || _ || _) eqn:Hc.
  { split; [done |]. intros (_ & Hsh & _). by apply Hs in Hsh. }
  destruct Hs as [Hs _]. rewrite (Hs eq_refl).
  destruct e' as [|m]; simpl.
  2:{ split; [done | by intros (_ & _ & ? & _)]. }
  destruct (String.eqb_spec dt "INT32") as [->|Hne]; simpl.
  - by split.
  - split; [done | by intros (_ & _ & _ & ?)].
Qed.

Lemma ValidateShapeAndDatatype_total (name : string) (r : R) :
  passes_or_exits_1 (ValidateShapeAndDatatype name r).
Proof.
  unfold ValidateShapeAndDatatype, passes_or_exits_1.
  destruct (Shape r name) as [e shape], (Datatype r name) as [e' dt].
  destruct e as [|m]; simpl; [| eauto].
  destruct (negb _ || _ || _); [eauto |].
  destruct e' as [|m]; simpl; [| eauto].
  destruct (negb _); eauto.
Qed.

Lemma compare_outputs_ok (o0 o1 : list Byte.byte) (n i : nat) :
  compare_outputs o0 o1 i n = Ret tt <->
  forall j, (i <= j < i + n)%nat ->
    load_int32 o0 j = nth j input0_data 0 + nth j input1_data 0 /\
    load_int32 o1 j = nth j input0_data 0 - nth j input1_data 0.
Proof.
  revert i. induction n as [|n IH]; intros i; cbn [compare_outputs].
  - split; [intros _ j ?; lia | done].
  - destruct (Z.eqb_spec (nth i input0_data 0 + nth i input1_data 0)
                (load_int32 o0 i)) as [Hs|Hs]; cbn [negb].
    2:{ split; [done |]. intros Hall. destruct (Hall i) as [? _]; [lia |].
        congruence. }
    destruct (Z.eqb_spec (nth i input0_data 0 - nth i input1_data 0)
                (load_int32 o1 i)) as [Hd|Hd]; cbn [negb].
    2:{ split; [done |]. intros Hall. destruct (Hall i) as [_ ?]; [lia |].
        congruence. }
    rewrite IH. split.
    + intros Hall j Hj. destruct (decide (j = i)) as [->|]; [done |].
      apply Hall. lia.
    + intros Hall j Hj. apply Hall. lia.
Qed.

Lemma compare_outputs_total (o0 o1 : list Byte.byte) (n i : nat) :
  passes_or_exits_1 (compare_outputs o0 o1 i n).
Proof.
  revert i. induction n as [|n IH]; intros i; cbn [compare_outputs].
  - by left.
  - destruct (negb _); [right; eauto |].
    destruct (negb _); [right; eauto | apply IH].
Qed.

(** The sums and differences the program computes on [int32_t] values
    stay in range, so they are the sums and differences of integers. *)
Lemma sums_fit_int32 (i : nat) :
  (i < 16)%nat ->
  - 2 ^ 31 <= nth i input0_data 0 - nth i input1_data 0 /\
  nth i input0_data 0 + nth i input1_data 0 <= 2 ^ 31 - 1.
Proof.
  intros Hi.
  do 16 (destruct i as [|i]; [vm_compute; split; discriminate |]).
  lia.
Qed.

End SyncValidation.

(** C9: on every inference result, the synchronous client reaches the
    line that prints "PASS : Infer" exactly when OUTPUT0 and OUTPUT1 both
    have shape [1,16], datatype INT32 and a 64-byte buffer, and at every
    index below 16 OUTPUT0 holds the sum and OUTPUT1 the difference of the
    two inputs; in every other case it exits with status 1. *)
Theorem sync_pass_only_if_valid {R : Type} `{InferResultOps R} (r : R) :
  (SyncClient.validate r = Ret tt <->
     SyncClient.output_as_expected r "OUTPUT0" /\
     SyncClient.output_as_expected r "OUTPUT1" /\
     forall i, (i < 16)%nat -> SyncClient.values_as_expected r i) /\
  (SyncClient.validate r = Ret tt \/
   exists lines, SyncClient.validate r = Exit 1 lines).
Proof.
  unfold SyncClient.validate, SyncClient.output_as_expected,
    SyncClient.values_as_expected.
  pose proof (ValidateShapeAndDatatype_ok "OUTPUT0" r) as H0.
  pose proof (ValidateShapeAndDatatype_total "OUTPUT0" r) as T0.
  pose proof (ValidateShapeAndDatatype_ok "OUTPUT1" r) as H1.
  pose proof (ValidateShapeAndDatatype_total "OUTPUT1" r) as T1.
  destruct (SyncClient.ValidateShapeAndDatatype "OUTPUT0" r) as [[]|c l|e];
    cbn [mbind run_bind].
  2:{ destruct T0 as [?|[l' [= -> ->]]]; [done |]. split; [| eauto].
      split; [done |]. intros [(?&?&?&?&_) _]. by apply H0. }
  2:{ by destruct T0 as [?|[? ?]]. }
  destruct H0 as [H0 _]. destruct (H0 eq_refl) as (S0 & S0' & D0 & D0').
  clear H0 T0.
  destruct (SyncClient.ValidateShapeAndDatatype "OUTPUT1" r) as [[]|c l|e];
    cbn [mbind run_bind].
  2:{ destruct T1 as [?|[l' [= -> ->]]]; [done |]. split; [| eauto].
      split; [done |]. intros (_ & (?&?&?&?&_) & _). by apply H1. }
  2:{ by destruct T1 as [?|[? ?]]. }
  destruct H1 as [H1 _]. destruct (H1 eq_refl) as (S1 & S1' & D1 & D1').
  clear H1 T1.
  destruct (RawData r "OUTPUT0") as [e0 o0]; cbn [fst snd].
  destruct e0 as [|m]; cbn [mbind run_bind FAIL_IF_ERR].
  2:{ split; [| eauto]. split; [done |]. by intros [(_&_&_&_&?&_) _]. }
  destruct (Z.eqb_spec (Z.of_nat (length o0)) 64) as [L0|L0]; cbn [negb].
  2:{ split; [| eauto]. split; [done |]. by intros [(_&_&_&_&_&?) _]. }
  destruct (RawData r "OUTPUT1") as [e1 o1]; cbn [fst snd].
  destruct e1 as [|m]; cbn [mbind run_bind FAIL_IF_ERR].
  2:{ split; [| eauto]. split; [done |]. by intros (_ & (_&_&_&_&?&_) & _). }
  destruct (Z.eqb_spec (Z.of_nat (length o1)) 64) as [L1|L1]; cbn [negb].
  2:{ split; [| eauto]. split; [done |]. by intros (_ & (_&_&_&_&_&?) & _). }
  split; [| apply compare_outputs_total].
  rewrite compare_outputs_ok. split.
  - intros Hall. do 2 (split; [done |]). intros i Hi. apply Hall. lia.
  - intros (_ & _ & Hall) j Hj. apply Hall. lia.
Qed.

(** ** The option loops *)

(** C10: for a [-H] argument without [':'], the header the asynchronous
    client computes is the whole argument, so its second [substr] is
    called at position [header.size() + 1], past the end of the argument,
    which raises [std::out_of_range]; the synchronous client instead
    reports the malformed header through [Usage] and exits with status
    1.  The two programs disagree on this input. *)
Theorem header_without_colon (arg : string) :
  ":"%char ∉ list_ascii_of_string arg ->
  size arg <= size_max ->
  substr arg 0 (find arg ":") = Ret arg /\
  size arg < size arg + 1 /\
  substr arg (size arg + 1) npos
    = Throw (out_of_range "basic_string::substr") /\
  (forall c, AsyncClient.case_H arg c
             = Throw (out_of_range "basic_string::substr")) /\
  (forall prog rest,
      AsyncClient.parse (prog :: "-H" :: arg :: rest)
      = Throw (out_of_range "basic_string::substr")) /\
  (forall prog rest,
      SyncClient.parse (prog :: "-H" :: arg :: rest)
      = SyncClient.Usage prog
          "HTTP header specified incorrectly. Must be formmated as 'Header:Value'") /\
  (forall prog rest,
      exists lines, SyncClient.parse (prog :: "-H" :: arg :: rest)
                    = Exit 1 lines).
Proof.
  intros Hno Hsz.
  assert (Hheader : substr arg 0 (find arg ":") = Ret arg)
    by (rewrite find_no_colon by done; by apply substr_whole).
  assert (Hasync : forall c, AsyncClient.case_H arg c
                               = Throw (out_of_range "basic_string::substr")).
  { intros c. unfold AsyncClient.case_H. rewrite Hheader.
    cbn [mbind run_bind]. by rewrite substr_past_end. }
  assert (Hsync : forall prog rest,
             SyncClient.parse (prog :: "-H" :: arg :: rest)
             = SyncClient.Usage prog
                 "HTTP header specified incorrectly. Must be formmated as 'Header:Value'").
  { intros prog rest. unfold SyncClient.parse, getopt_long.
    cbn [tail hd scan_from classify SyncClient.optstring element_rets
           list_ascii_of_string cluster lookup_opt Ascii.eqb Bool.eqb
           andb negb app SyncClient.loop bool_decide].
    unfold SyncClient.switch at 1. cbn [opt optarg SyncClient.arg_of default from_option id].
    change (chr "H" =? 0) with false. change (chr "H" =? 1) with false.
    change (chr "H" =? 2) with false. change (chr "H" =? 3) with false.
    change (chr "H" =? chr "v") with false.
    change (chr "H" =? chr "u") with false.
    change (chr "H" =? chr "i") with false.
    change (chr "H" =? chr "t") with false.
    change (chr "H" =? chr "H") with true. cbv iota.
    unfold SyncClient.case_H. rewrite Hheader. cbn [mbind run_bind].
    by rewrite Z.eqb_refl. }
  split_and!; try done.
  - lia.
  - apply substr_past_end.
  - intros prog rest. unfold AsyncClient.parse, getopt.
    cbn [tail hd scan_from classify AsyncClient.optstring element_rets
           list_ascii_of_string cluster lookup_opt Ascii.eqb Bool.eqb
           andb negb app AsyncClient.loop bool_decide].
    unfold AsyncClient.switch at 1.
    cbn [opt optarg AsyncClient.arg_of default from_option id].
    change (chr "H" =? chr "v") with false.
    change (chr "H" =? chr "u") with false.
    change (chr "H" =? chr "i") with false.
    change (chr "H" =? chr "t") with false.
    change (chr "H" =? chr "H") with true. cbv iota.
    by rewrite Hasync.
  - intros prog rest. rewrite Hsync. unfold SyncClient.Usage. eauto.
Qed.

Lemma header_without_colon_witness :
  AsyncClient.parse ["client"; "-H"; "Authorization"]
  = Throw (out_of_range "basic_string::substr") /\
  exists lines, SyncClient.parse ["client"; "-H"; "Authorization"]
                = Exit 1 lines.
Proof.
  assert (Hno : ":"%char ∉ list_ascii_of_string "Authorization").
  { cbn [list_ascii_of_string]. rewrite !not_elem_of_cons.
    split_and!; try discriminate. apply not_elem_of_nil. }
  assert (Hsz : size "Authorization" <= size_max) by (vm_compute; discriminate).
  destruct (header_without_colon "Authorization" Hno Hsz)
    as (_ & _ & _ & _ & Ha & _ & Hs).
  split; [apply Ha | apply Hs].
Defined.

Ltac scan_args :=
  unfold SyncClient.parse, AsyncClient.parse, getopt, getopt_long;
  cbn [tail hd scan_from classify SyncClient.optstring AsyncClient.optstring
         element_rets list_ascii_of_string cluster lookup_opt Ascii.eqb
         Bool.eqb andb negb app fst snd SyncClient.loop AsyncClient.loop
         bool_decide].

Ltac run_switch :=
  unfold SyncClient.switch, AsyncClient.switch;
  cbn [opt optarg SyncClient.arg_of AsyncClient.arg_of default from_option id];
  repeat match goal with
    | |- context [chr ?a =? chr ?b] =>
        let v := eval vm_compute in (chr a =? chr b) in
        change (chr a =? chr b) with v
    | |- context [chr ?a =? ?n] =>
        let v := eval vm_compute in (chr a =? n) in
        change (chr a =? n) with v
    end;
  cbv iota.

Lemma classify_short (long : bool) (c : ascii) (cs : string) :
  c <> "-"%char ->
  classify long (String "-" (String c cs))
  = Short (c :: list_ascii_of_string cs).
Proof.
  intros Hc.
  destruct c as [[] [] [] [] [] [] [] []]; try reflexivity.
  by destruct Hc.
Qed.

(** An element that starts with a character outside the option string
    makes the scanner return ['?'] first. *)
Lemma scan_unknown_first (optstring : list ascii)
      (longopts : option (list option_)) (c : ascii) (cs : string)
      (rest : list string) :
  c <> "-"%char -> lookup_opt c optstring = None ->
  exists rs, scan_from optstring longopts (String "-" (String c cs) :: rest)
             = unknown :: rs.
Proof.
  intros Hc Hl. cbn [scan_from]. rewrite classify_short by done.
  cbn [element_rets cluster]. rewrite Hl.
  destruct rest as [|b rest'].
  - destruct (cluster optstring (list_ascii_of_string cs) None); eauto.
  - destruct (cluster optstring (list_ascii_of_string cs) (Some b)) as [rs t].
    eauto.
Qed.

Lemma sync_switch_unknown (prog : string) (r : ret) (c : SyncClient.config) :
  opt r = chr "?" -> SyncClient.switch prog r c = SyncClient.Usage prog "".
Proof. intros Ho. unfold SyncClient.switch. by rewrite Ho. Qed.

Lemma async_switch_unknown (prog : string) (r : ret) (c : AsyncClient.config) :
  opt r = chr "?" -> AsyncClient.switch prog r c = AsyncClient.Usage prog "".
Proof. intros Ho. unfold AsyncClient.switch. by rewrite Ho. Qed.

(** C8, as the code has it: the synchronous client accepts [-u], [-t],
    [-H], [-C] and [-c] and stores their values in its configuration;
    the asynchronous client accepts [-u], [-t] and [-H] only, and treats
    [-C] and [-c] like any other unrecognized option.  For every
    unrecognized option both programs print their usage message and exit
    with status 1. *)
Theorem cli_flags (prog : string) :
  (forall v,
      SyncClient.parse [prog; "-u"; v]
      = Ret (SyncClient.set_url v SyncClient.initial) /\
      AsyncClient.parse [prog; "-u"; v]
      = Ret (AsyncClient.mk_config true 1 v ∅ 0)) /\
  (forall v t, stoi v = Ret t ->
      SyncClient.parse [prog; "-t"; v]
      = Ret (SyncClient.set_client_timeout (to_uint32 t) SyncClient.initial) /\
      AsyncClient.parse [prog; "-t"; v]
      = Ret (AsyncClient.mk_config true 1 "localhost:8001" ∅ (to_uint32 t))) /\
  (forall h v,
      h <> "" -> ":"%char ∉ list_ascii_of_string h ->
      size (h +:+ String ":" v) <= size_max ->
      SyncClient.parse [prog; "-H"; h +:+ String ":" v]
      = Ret (SyncClient.set_http_headers (<[h := v]> ∅) SyncClient.initial) /\
      AsyncClient.parse [prog; "-H"; h +:+ String ":" v]
      = Ret (AsyncClient.mk_config true 1 "localhost:8001" (<[h := v]> ∅) 0)) /\
  (SyncClient.parse [prog; "-C"; "deflate"]
   = Ret (SyncClient.set_compression_algorithm
            SyncClient.GRPC_COMPRESS_DEFLATE SyncClient.initial) /\
   SyncClient.parse [prog; "-C"; "gzip"]
   = Ret (SyncClient.set_compression_algorithm
            SyncClient.GRPC_COMPRESS_GZIP SyncClient.initial) /\
   SyncClient.parse [prog; "-C"; "none"]
   = Ret (SyncClient.set_compression_algorithm
            SyncClient.GRPC_COMPRESS_NONE SyncClient.initial)) /\
  (SyncClient.parse [prog; "-c"; "true"]
   = Ret (SyncClient.set_use_cached_channel true
            (SyncClient.set_test_use_cached_channel true SyncClient.initial)) /\
   SyncClient.parse [prog; "-c"; "false"]
   = Ret (SyncClient.set_use_cached_channel false
            (SyncClient.set_test_use_cached_channel true SyncClient.initial))) /\
  (forall v,
      AsyncClient.parse [prog; "-C"; v] = AsyncClient.Usage prog "" /\
      AsyncClient.parse [prog; "-c"; v] = AsyncClient.Usage prog "") /\
  (forall c cs rest,
      c <> "-"%char ->
      lookup_opt c (list_ascii_of_string SyncClient.optstring) = None ->
      SyncClient.parse (prog :: String "-" (String c cs) :: rest)
      = SyncClient.Usage prog "") /\
  (forall c cs rest,
      c <> "-"%char ->
      lookup_opt c (list_ascii_of_string AsyncClient.optstring) = None ->
      AsyncClient.parse (prog :: String "-" (String c cs) :: rest)
      = AsyncClient.Usage prog "") /\
  (forall r cs ca,
      opt r = chr "?" ->
      SyncClient.switch prog r cs = Exit 1 (
        [ "Usage: " +:+ prog +:+ " [options]";
          SyncClient.tab +:+ "-v";
          SyncClient.tab +:+ "-m <model name>";
          SyncClient.tab +:+ "-u <URL for inference service>";
          SyncClient.tab +:+ "-t <client timeout in microseconds>";
          SyncClient.tab +:+ "-H <HTTP header>";
          SyncClient.tab +:+ "For -H, header must be 'Header:Value'. May be given multiple times.";
          SyncClient.tab +:+ "-C <grpc compression algorithm>. 'deflate', 'gzip' and 'none' are supported";
          SyncClient.tab +:+ "-c <use_cached_channel>.  Use cached channel when creating new client.  Specify 'true' or 'false'. True by default";
          "" ]) /\
      AsyncClient.switch prog r ca = Exit 1 (
        [ "Usage: " +:+ prog +:+ " [options]";
          AsyncClient.tab +:+ "-v";
          AsyncClient.tab +:+ "-u <URL for inference service>";
          AsyncClient.tab +:+ "-t <client timeout in microseconds>";
          AsyncClient.tab +:+ "-H <HTTP header>";
          "";
          "For -H, header must be 'Header:Value'. May be given multiple times." ])).
Proof.
  split_and!.
  - intros v. split; scan_args; run_switch; reflexivity.
  - intros v t Ht. split; scan_args; run_switch; rewrite Ht; reflexivity.
  - intros h v Hne Hno Hsz. split; scan_args; run_switch.
    + unfold SyncClient.case_H. rewrite substr_header by done.
      cbn [mbind run_bind].
      destruct (Z.eqb_spec (size h) (size (h +:+ String ":" v))) as [He|_].
      { unfold size in He. rewrite length_append in He. simpl in He. lia. }
      destruct (String.eqb_spec h ""); [done |]. cbn [orb].
      rewrite substr_value by done. reflexivity.
    + unfold AsyncClient.case_H. rewrite substr_header by done.
      cbn [mbind run_bind]. rewrite substr_value by done. reflexivity.
  - scan_args; run_switch; reflexivity.
  - scan_args; run_switch; reflexivity.
  - scan_args; run_switch; reflexivity.
  - scan_args; run_switch; reflexivity.
  - scan_args; run_switch; reflexivity.
  - intros v. split; scan_args; run_switch; reflexivity.
  - intros c cs rest Hc Hl. unfold SyncClient.parse, getopt_long.
    cbn [tail hd].
    destruct (scan_unknown_first _ (Some SyncClient.long_options) c cs rest
                Hc Hl) as [rs ->].
    cbn [SyncClient.loop]. by rewrite sync_switch_unknown.
  - intros c cs rest Hc Hl. unfold AsyncClient.parse, getopt.
    cbn [tail hd].
    destruct (scan_unknown_first _ None c cs rest Hc Hl) as [rs ->].
    cbn [AsyncClient.loop]. by rewrite async_switch_unknown.
  - intros r cs ca Ho.
    by rewrite sync_switch_unknown, async_switch_unknown.
Qed.

Lemma cli_flags_witness :
  SyncClient.parse ["client"; "-t"; "250"]
  = Ret (SyncClient.set_client_timeout 250 SyncClient.initial) /\
  AsyncClient.parse ["client"; "-H"; "Auth:token"]
  = Ret (AsyncClient.mk_config true 1 "localhost:8001"
           (<["Auth" := "token"]> ∅) 0) /\
  SyncClient.parse ["client"; "-x"; "-v"] = SyncClient.Usage "client" "" /\
  AsyncClient.parse ["client"; "-x"; "-v"] = AsyncClient.Usage "client" "".
Proof.
  destruct (cli_flags "client") as (_ & Ht & HH & _ & _ & _ & Hs & Ha & _).
  split_and!.
  - apply (Ht "250" 250). reflexivity.
  - apply (HH "Auth" "token").
    + discriminate.
    + cbn [list_ascii_of_string]. rewrite !not_elem_of_cons.
      split_and!; try discriminate. apply not_elem_of_nil.
    + vm_compute. discriminate.
  - apply (Hs "x"%char "" ["-v"]); [discriminate | reflexivity].
  - apply (Ha "x"%char "" ["-v"]); [discriminate | reflexivity].
Defined.

(** The asynchronous client does not accept [-C] and [-c]: it answers
    them with its usage message and status 1. *)
Lemma async_rejects_C_and_c :
  AsyncClient.parse ["simple_grpc_async_infer_client"; "-C"; "gzip"]
  = Exit 1
      [ "Usage: simple_grpc_async_infer_client [options]";
        AsyncClient.tab +:+ "-v";
        AsyncClient.tab +:+ "-u <URL for inference service>";
        AsyncClient.tab +:+ "-t <client timeout in microseconds>";
        AsyncClient.tab +:+ "-H <HTTP header>";
        "";
        "For -H, header must be 'Header:Value'. May be given multiple times." ]
  /\
  AsyncClient.parse ["simple_grpc_async_infer_client"; "-c"; "false"]
  = AsyncClient.parse ["simple_grpc_async_infer_client"; "-C"; "gzip"].
Proof. split; reflexivity. Qed.

(** ** The threads of the asynchronous client *)

Section AsyncFacts.
Context {R : Type} `{InferResultOps R}.
Import AsyncClient.

Ltac step_inv Hstep :=
  unfold step, main_step, cb_step, deliver, spurious, wait_step, lock, submit,
    notify_all in Hstep;
  repeat (case_match; simplify_option_eq).

(** Looking up a thread after a step of thread [k] or after a delivery. *)
Ltac lookup_cases Hj :=
  first
    [ apply list_lookup_insert_Some in Hj as [(-> & <- & ?) | (? & Hj)]
    | apply lookup_app_Some in Hj as [Hj | (? & Hj)];
      [| apply list_lookup_singleton_Some in Hj as [? <-] ] ].

Ltac use_lookups Hcb :=
  repeat match goal with
    | Hj : callbacks _ !! ?j = Some ?c |- _ =>
        lazymatch goal with
        | _ : in_critical (cb_at c) = true <-> _ = Some (Cb j) |- _ => fail
        | _ => pose proof (Hcb j c Hj)
        end
    end.

Ltac pc_facts :=
  repeat match goal with
    | c : callback _ |- _ => destruct c as [? ? ?]
    | s : state _ |- _ => destruct s
    end;
  simplify_eq/=.

Lemma mutex_inv_step (s s' : state R) (l : label R) :
  mutex_inv s -> step l s = Some s' -> mutex_inv s'.
Proof.
  intros (Hcb & Hmain & Hbound) Hstep. step_inv Hstep.
  all: split_and!; simpl.
  all: try (intros j cj Hj; simpl in Hj; try lookup_cases Hj).
  all: use_lookups Hcb; pc_facts.
  all: rewrite ?length_insert; simpl.
  all: try (intuition (congruence || lia)).
  - intros k0 [= <-]. by eapply lookup_lt_Some.
  - split; [done |]. intros Hm. apply Hbound in Hm. lia.
  - intros k Hk. rewrite length_app. apply Hbound in Hk. simpl. lia.
Qed.

Lemma mutex_inv_init (n : Z) : mutex_inv (init (R:=R) n).
Proof. split_and!; simpl; [intros k c Hk | | ]; done. Qed.

Lemma reachable_mutex_inv (n : Z) (s : state R) :
  reachable n s -> mutex_inv s.
Proof.
  induction 1 as [|s l s' _ IH Hstep];
    [apply mutex_inv_init | by eapply mutex_inv_step].
Qed.

Lemma completions_insert (l : list (callback R)) (k : nat) (c c' : callback R) :
  l !! k = Some c ->
  completions (<[k := c']> l)
  = completions l - (if counted c then 1 else 0) + (if counted c' then 1 else 0).
Proof.
  revert k. induction l as [|x l IH]; intros [|k] Hk; simplify_eq/=.
  - lia.
  - rewrite (IH k) by done. lia.
Qed.

Lemma completions_app (l l' : list (callback R)) :
  completions (l ++ l') = completions l + completions l'.
Proof. induction l as [|x l IH]; simpl; [done | rewrite IH; lia]. Qed.

Lemma incr_mod (x : Z) : incr (x mod 2 ^ 64) = (x + 1) mod 2 ^ 64.
Proof. unfold incr. by rewrite Zplus_mod_idemp_l. Qed.

Lemma count_inv_step (s s' : state R) (l : label R) :
  count_inv s -> step l s = Some s' -> count_inv s'.
Proof.
  unfold count_inv. intros Hc Hstep. step_inv Hstep; simpl; try done.
  all: try (erewrite completions_insert by done; unfold counted; pc_facts).
  all: rewrite ?completions_app, ?Hc, ?incr_mod; simpl; try (f_equal; lia).
  unfold counted. destruct h; simpl; f_equal; lia.
Qed.

Lemma reachable_count_inv (n : Z) (s : state R) :
  reachable n s -> count_inv s.
Proof.
  induction 1 as [|s l s' _ IH Hstep]; [done | by eapply count_inv_step].
Qed.

Lemma returned_inv_step (s s' : state R) (l : label R) :
  mutex_inv s -> returned_inv s -> step l s = Some s' -> returned_inv s'.
Proof.
  unfold returned_inv. intros (Hcb & Hmain & _) Hr Hstep.
  step_inv Hstep; simpl; intros Hpc; try done.
  all: use_lookups Hcb; pc_facts; try done; try lia.
  all: try (intuition congruence).
Qed.

Lemma reachable_returned_inv (n : Z) (s : state R) :
  reachable n s -> returned_inv s.
Proof.
  induction 1 as [|s l s' Hs IH Hstep]; [done |].
  eapply returned_inv_step; eauto using reachable_mutex_inv.
Qed.

(** A thread found before a step is found after it: the same thread
    when another one moved, the moved thread otherwise. *)
Lemma lookup_after_insert (l : list (callback R)) (j k : nat)
      (cj c' : callback R) :
  l !! j = Some cj ->
  (j = k /\ <[k := c']> l !! j = Some c') \/
  (j <> k /\ <[k := c']> l !! j = Some cj).
Proof.
  intros Hj. destruct (decide (j = k)) as [->|Hne].
  - left. split; [done |]. apply list_lookup_insert_eq.
    by eapply lookup_lt_Some.
  - right. split; [done |]. by rewrite list_lookup_insert_ne.
Qed.

Lemma wakeup_inv_step (s s' : state R) (l : label R) :
  wakeup_inv s -> step l s = Some s' -> wakeup_inv s'.
Proof.
  unfold wakeup_inv. intros Hw Hstep.
  step_inv Hstep; simpl; intros Hrun Hpc Hle; try done.
  all: pc_facts.
  all: try match goal with
         | Hf : (_ <=? _) = false |- _ => apply Z.leb_gt in Hf; lia
         end.
  all: try match goal with
         | Hk : ?l !! ?k = Some _ |- context [<[?k := _]> ?l] =>
             eexists k, _; split;
             [ apply list_lookup_insert_eq; by eapply lookup_lt_Some
             | reflexivity ]
         end.
  all: destruct Hw as (j & cj & Hj & Hdue); [done .. |].
  all: try match goal with
         | Hk : ?l !! ?k = Some ?c |- context [<[?k := ?c']> ?l] =>
             destruct (lookup_after_insert _ j k cj c' Hj)
               as [[-> Hj'] | [Hne Hj']];
             [ assert (cj = c) as -> by congruence | by eauto ]
         end.
  all: try (unfold notify_due in Hdue; simpl in Hdue; repeat case_match;
            first [done | eexists k, _; split; [exact Hj' | done]]).
  exists j, cj. split; [by apply lookup_app_l_Some | done].
Qed.

Lemma reachable_wakeup_inv (n : Z) (s : state R) :
  reachable n s -> wakeup_inv s.
Proof.
  induction 1 as [|s l s' Hs IH Hstep]; [done |].
  by eapply wakeup_inv_step.
Qed.

Lemma slot_inv_step (s s' : state R) (l : label R) :
  slot_inv s -> step l s = Some s' -> slot_inv s'.
Proof.
  unfold slot_inv, slot_filled. intros Hs Hstep.
  step_inv Hstep; simpl; intros Hci; try done.
  all: pc_facts.
  all: try (by apply Hs).
  all: try (left; eexists k, _; split;
            [ apply list_lookup_insert_eq; by eapply lookup_lt_Some
            | reflexivity ]).
  all: try (right; eexists k, _; split;
            [ apply list_lookup_insert_eq; by eapply lookup_lt_Some
            | by split ]).
  all: destruct Hs as [(j & cj & Hj & Hb) | (j & cj & Hj & Hh & Hr)];
    [done | |].
  all: try match goal with
         | Hk : ?l !! ?k = Some ?c |- context [<[?k := ?c']> ?l] =>
             destruct (lookup_after_insert _ j k cj c' Hj)
               as [[-> Hj'] | [Hne Hj']];
             [ assert (cj = c) as -> by congruence | by eauto 8 ]
         end.
  all: try (right; eexists k, _; split; [exact Hj' | by split]).
  all: try (unfold between_assignments in Hb; simpl in Hb; by repeat case_match).
  - left. exists j, cj. split; [by apply lookup_app_l_Some | done].
  - right. exists j, cj. split; [by apply lookup_app_l_Some | done].
Qed.

Lemma reachable_slot_inv (n : Z) (s : state R) :
  reachable n s -> slot_inv s.
Proof.
  induction 1 as [|s l s' Hs IH Hstep]; [done |].
  by eapply slot_inv_step.
Qed.

Lemma read_inv_step (s s' : state R) (l : label R) :
  mutex_inv s -> slot_inv s -> read_inv s -> step l s = Some s' ->
  read_inv s'.
Proof.
  unfold slot_inv, read_inv, slot_filled.
  intros (Hcb & Hmain & _) Hs Hr Hstep.
  step_inv Hstep; simpl; intros Hpc; try done.
  all: pc_facts.
  all: try (by apply Hr).
  all: try (split; [done |]; eexists k, _; split;
            [ apply list_lookup_insert_eq; by eapply lookup_lt_Some
            | by split ]).
  all: try (destruct Hr as (Hci & j & cj & Hj & Hh & Hres); [done |];
            split; [done |]).
  all: try match goal with
         | Hk : ?l !! ?k = Some ?c |- context [<[?k := ?c']> ?l] =>
             destruct (lookup_after_insert _ j k cj c' Hj)
               as [[-> Hj'] | [Hne Hj']];
             [ assert (cj = c) as -> by congruence;
               eexists k, _; split; [exact Hj' | by split]
             | by eauto 8 ]
         end.
  - split; [done |].
    destruct Hs as [(j & [hj rj pj] & Hj & Hb) | Hfilled]; [done | | done].
    unfold between_assignments in Hb. simpl in Hb.
    destruct hj; [done |]. destruct pj; try done.
    apply Hcb in Hj. simpl in Hj.
    destruct Hmain as [Hmain _], Hj as [Hj _].
    rewrite Hmain in Hj by done. by specialize (Hj eq_refl).
  - eexists k, _. split;
      [apply list_lookup_insert_eq; by eapply lookup_lt_Some | by split].
  - exists j, cj. split; [by apply lookup_app_l_Some | done].
Qed.

Lemma reachable_read_inv (n : Z) (s : state R) :
  reachable n s -> read_inv s.
Proof.
  induction 1 as [|s l s' Hs IH Hstep]; [done |].
  eapply read_inv_step; eauto using reachable_mutex_inv, reachable_slot_inv.
Qed.

Lemma requests_snoc (i : Z) :
  0 <= i -> requests (i + 1) = (requests i ++ [Counted i])%list.
Proof.
  intros Hi. unfold requests.
  rewrite seqZ_app by lia. rewrite fmap_app. by rewrite Z.add_0_l.
Qed.

Lemma program_order_inv_step (n : Z) (s s' : state R) (l : label R) :
  0 <= n < 2 ^ 64 ->
  program_order_inv n s -> step l s = Some s' -> program_order_inv n s'.
Proof.
  unfold program_order_inv. intros Hn (Hrep & Hsub) Hstep.
  step_inv Hstep; simpl.
  all: pc_facts.
  all: split_and?; try done.
  all: repeat match goal with
         | Hc : _ /\ _ |- _ => destruct Hc
         | Hlt : (_ <? _) = true |- _ => apply Z.ltb_lt in Hlt
         | Hge : (_ <? _) = false |- _ => apply Z.ltb_ge in Hge
         end; subst.
  all: unfold incr; rewrite ?Z.mod_small by lia; try lia; try done.
  - by rewrite requests_snoc.
  - by replace i with repeat_cnt0 by lia.
Qed.

Lemma reachable_program_order_inv (n : Z) (s : state R) :
  0 <= n < 2 ^ 64 -> reachable n s -> program_order_inv n s.
Proof.
  intros Hn. induction 1 as [|s l s' Hs IH Hstep].
  - split; [done |]. simpl. split; [lia | done].
  - by eapply program_order_inv_step.
Qed.

Lemma handles_inv_step (s s' : state R) (l : label R) :
  handles_inv s -> step l s = Some s' -> handles_inv s'.
Proof.
  unfold handles_inv. intros Hh Hstep.
  step_inv Hstep; simpl; try done.
  all: intros j cj Hj; try lookup_cases Hj.
  all: repeat match goal with
         | Hk : callbacks _ !! _ = Some _ |- _ => apply Hh in Hk
         end.
  all: simpl in *; rewrite ?elem_of_app; auto.
Qed.

Lemma reachable_handles_inv (n : Z) (s : state R) :
  reachable n s -> handles_inv s.
Proof.
  induction 1 as [|s l s' Hs IH Hstep].
  - intros k c Hk. done.
  - by eapply handles_inv_step.
Qed.

(** *** Schedules *)

Lemma exec_app (t1 t2 : list (label R)) (s : state R) :
  exec (t1 ++ t2) s = exec t1 s ≫= exec t2.
Proof.
  revert s. induction t1 as [|l t1 IH]; intros s; simpl; [done |].
  destruct (step l s) as [s1|]; simpl; [apply IH | done].
Qed.

Lemma exec_reachable (n : Z) (tr : list (label R)) (s s' : state R) :
  reachable n s -> exec tr s = Some s' -> reachable n s'.
Proof.
  revert s. induction tr as [|l tr IH]; intros s Hs He.
  - by simplify_eq/=.
  - cbn [exec] in He. destruct (step l s) as [s1|] eqn:Hstep; [| done].
    eapply IH; [| exact He]. by eapply reach_step.
Qed.

Lemma lookup_last (l : list (callback R)) (c : callback R) :
  (l ++ [c]) !! length l = Some c.
Proof. by rewrite lookup_app_r, Nat.sub_diag by lia. Qed.

Lemma insert_last (l : list (callback R)) (c c' : callback R) :
  <[length l := c']> (l ++ [c]) = l ++ [c'].
Proof. by rewrite insert_app_r_alt, Nat.sub_diag by lia. Qed.

Ltac unfold_setters :=
  unfold exit, unlock, set_cb, set_mtx, set_done_cnt, set_callback_invoked,
    set_result_placeholder, set_pc, set_callbacks, set_submitted, print,
    eprint, set_status, at_pc;
  simpl.

Lemma step_deliver (s : state R) (h : handle) (r : R) :
  status s = Running -> h ∈ submitted s ->
  step (LDeliver h r) s
  = Some (set_callbacks (callbacks s ++ [mk_callback h r CbLock]) s).
Proof.
  intros Hrun Hh. unfold step, deliver. rewrite Hrun.
  by rewrite bool_decide_eq_true_2.
Qed.

(** A step of the invocation started last. *)
Lemma step_last (s : state R) (l : list (callback R)) (c : callback R) :
  status s = Running -> callbacks s = l ++ [c] ->
  step (LCallback (length l)) s
  = match cb_at c with
    | CbLock =>
        match mtx s with
        | None =>
            Some (set_callbacks (l ++ [at_pc CbFirst c])
                    (set_mtx (Some (Cb (length l))) s))
        | Some _ => None
        end
    | CbFirst =>
        match cb_handle c with
        | Counted i =>
            Some (set_callbacks (l ++ [at_pc CbSecond c])
                    (set_done_cnt (incr (done_cnt s))
                       (print ("Callback no." +:+ pretty i
                               +:+ " is called") s)))
        | Deferred =>
            Some (set_callbacks (l ++ [at_pc CbSecond c])
                    (set_callback_invoked true s))
        end
    | CbSecond =>
        match cb_handle c with
        | Counted i =>
            if IsOk (RequestStatus (cb_result c))
            then Some (set_callbacks (l ++ [at_pc CbUnlock c]) s)
            else Some (exit 1
                         (eprint ("error: Inference failed: "
                                  +:+ Message (RequestStatus (cb_result c)))
                            s))
        | Deferred =>
            Some (set_callbacks (l ++ [at_pc CbUnlock c])
                    (set_result_placeholder (Some (cb_result c)) s))
        end
    | CbUnlock => Some (set_callbacks (l ++ [at_pc CbNotify c]) (unlock s))
    | CbNotify => Some (set_callbacks (l ++ [at_pc CbDone c]) (notify_all s))
    | CbDone => None
    end.
Proof.
  intros Hrun Hl. unfold step, cb_step. rewrite Hrun, Hl, lookup_last.
  cbn [mbind option_bind]. unfold set_cb, lock.
  destruct (cb_at c), (cb_handle c); try done.
  all: try (destruct (mtx s); [done |]; cbn [fmap option_fmap option_map]).
  all: try destruct (IsOk _); try done.
  all: simpl; rewrite ?Hl, ?insert_last; try done.
  all: unfold notify_all; simpl; repeat case_match; simpl; by rewrite ?Hl, ?insert_last.
Qed.

(** One whole invocation of a loop request's callback, from a state
    in which the mutex is free. *)
Lemma exec_callback_counted (s : state R) (i : Z) (r : R) :
  status s = Running -> mtx s = None -> Counted i ∈ submitted s ->
  IsOk (RequestStatus r) = true ->
  exec (LDeliver (Counted i) r :: whole_callback (length (callbacks s))) s
  = Some (mk_state None (repeat_cnt s) (incr (done_cnt s))
            (callback_invoked s) (result_placeholder s)
            (pc (notify_all s))
            (callbacks s ++ [mk_callback (Counted i) r CbDone])
            (submitted s)
            (cout s ++ ["Callback no." +:+ pretty i +:+ " is called"])
            (cerr s) Running).
Proof.
  intros Hrun Hm Hsub Hok. destruct s as [m n d ci rp p cbs sub co ce st].
  simpl in *. subst m st.
  unfold whole_callback. cbn [replicate exec].
  rewrite step_deliver by done. cbn [mbind option_bind]. unfold_setters.
  do 5 (erewrite step_last by (simpl; done); simpl; rewrite ?Hok;
        cbn [mbind option_bind]; unfold_setters).
  unfold notify_all. simpl.
  by destruct p as [? | [] | | | [] | |].
Qed.

(** The library completes the requests of [cs] before the main thread
    starts its wait. *)
Lemma exec_complete_all (cs : list (Z * R)) (s : state R) :
  status s = Running -> mtx s = None -> pc s = MWaitAll WLock ->
  0 <= done_cnt s < 2 ^ 64 ->
  Forall (fun c => Counted c.1 ∈ submitted s
                   /\ IsOk (RequestStatus c.2) = true) cs ->
  exists s',
    exec (complete_all (length (callbacks s)) cs) s = Some s' /\
    status s' = Running /\ mtx s' = None /\ pc s' = MWaitAll WLock /\
    repeat_cnt s' = repeat_cnt s /\
    done_cnt s' = (done_cnt s + Z.of_nat (length cs)) mod 2 ^ 64.
Proof.
  revert s. induction cs as [|[i r] cs IH]; intros s Hrun Hm Hpc Hd Hall.
  - exists s. simpl. split_and!; try done.
    rewrite Z.add_0_r, Z.mod_small; done.
  - apply Forall_cons in Hall as [[Hi Hr] Hall]. simpl in Hi, Hr.
    cbn [complete_all].
    change (LDeliver (Counted i) r
              :: whole_callback (length (callbacks s))
              ++ complete_all (S (length (callbacks s))) cs)
      with ((LDeliver (Counted i) r
               :: whole_callback (length (callbacks s)))
              ++ complete_all (S (length (callbacks s))) cs).
    rewrite exec_app, exec_callback_counted by done.
    cbn [mbind option_bind].
    match goal with
    | |- context [exec _ ?s1] =>
        destruct (IH s1) as (s' & He & Hrun' & Hm' & Hpc' & Hrep' & Hd')
    end; simpl; try done.
    + unfold notify_all. by rewrite Hpc.
    + unfold incr. apply Z.mod_pos_bound. lia.
    + exists s'. split_and!; try done.
      * rewrite <- He. simpl. rewrite length_app. simpl.
        by rewrite Nat.add_1_r.
      * rewrite Hd'. simpl. unfold incr.
        rewrite Zplus_mod_idemp_l. f_equal. lia.
Qed.

Lemma step_submit (s : state R) (i : Z) :
  status s = Running -> pc s = MSubmit i -> i < repeat_cnt s ->
  step (LMain Success) s
  = Some (set_pc (MSubmit (incr i))
            (set_submitted (submitted s ++ [Counted i]) s)).
Proof.
  intros Hrun Hpc Hi. unfold step, main_step. rewrite Hrun, Hpc.
  destruct (Z.ltb_spec i (repeat_cnt s)); [done | lia].
Qed.

(** The loop of [main] when every [AsyncInfer] succeeds. *)
Lemma exec_submit_loop (k : nat) (s : state R) (i : Z) :
  status s = Running -> pc s = MSubmit i -> 0 <= i ->
  i + Z.of_nat k <= repeat_cnt s -> repeat_cnt s < 2 ^ 64 ->
  exec (replicate k (LMain Success)) s
  = Some (set_pc (MSubmit (i + Z.of_nat k))
            (set_submitted
               (submitted s ++ (Counted <$> seqZ i (Z.of_nat k))) s)).
Proof.
  revert s i. induction k as [|k IH]; intros s i Hrun Hpc Hi Hle Hn.
  - simpl. rewrite Z.add_0_r, app_nil_r. destruct s; simpl in *; by subst.
  - cbn [replicate exec]. rewrite (step_submit s i) by (done || lia).
    cbn [mbind option_bind].
    rewrite (IH _ (incr i)); simpl; try done.
    + unfold incr. rewrite Z.mod_small by lia. unfold_setters.
      rewrite <- app_assoc. simpl.
      rewrite (seqZ_cons i) by lia.
      replace (Z.pred (Z.of_nat (S k))) with (Z.of_nat k) by lia.
      replace (Z.succ i) with (i + 1) by lia.
      by replace (i + Z.of_nat (S k)) with (i + 1 + Z.of_nat k) by lia.
    + unfold incr. rewrite Z.mod_small by lia. lia.
    + unfold incr. rewrite Z.mod_small by lia. lia.
Qed.

Lemma exec_submit_all (n : Z) :
  0 <= n < 2 ^ 64 ->
  exec (submit_all n) (init (R:=R) n)
  = Some (set_pc (MWaitAll WLock) (set_submitted (requests n) (init n))).
Proof.
  intros Hn. unfold submit_all.
  rewrite replicate_S_end, exec_app.
  rewrite (exec_submit_loop _ _ 0); simpl; try done; try lia.
  unfold step. simpl. unfold main_step. simpl.
  rewrite Z2Nat.id, Z.add_0_l by lia.
  destruct (Z.ltb_spec n n); [lia | done].
Qed.

(** *** Draining the callbacks *)

Lemma pending_insert (l : list (callback R)) (k : nat) (c c' : callback R) :
  l !! k = Some c ->
  (pending_steps (<[k := c']> l) + remaining (cb_at c)
   = pending_steps l + remaining (cb_at c'))%nat.
Proof.
  revert k. induction l as [|x l IH]; intros [|k] Hk; simplify_eq/=.
  - lia.
  - specialize (IH k Hk). lia.
Qed.

Lemma pending_exists (l : list (callback R)) :
  pending_steps l <> 0%nat ->
  exists k c, l !! k = Some c /\ remaining (cb_at c) <> 0%nat.
Proof.
  induction l as [|x l IH]; simpl; [done |]. intros Hne.
  destruct (decide (remaining (cb_at x) = 0%nat)) as [Hx|Hx].
  - destruct IH as (k & c & Hk & Hc); [lia |]. by exists (S k), c.
  - by exists 0%nat, x.
Qed.

Lemma pending_none (l : list (callback R)) (k : nat) (c : callback R) :
  pending_steps l = 0%nat -> l !! k = Some c -> remaining (cb_at c) = 0%nat.
Proof.
  revert k. induction l as [|x l IH]; intros [|k] H0 Hk; simplify_eq/=.
  - lia.
  - apply (IH k); [lia | done].
Qed.

(** A counted invocation with a successful result takes its next step
    whatever the other threads do. *)
Lemma counted_step (s : state R) (k : nat) (c : callback R) :
  status s = Running -> all_counted_ok s -> callbacks s !! k = Some c ->
  remaining (cb_at c) <> 0%nat ->
  exists s1,
    step (LCallback k) s = Some s1 /\ status s1 = Running /\
    all_counted_ok s1 /\
    S (pending_steps (callbacks s1)) = pending_steps (callbacks s) /\
    done_cnt s1 = done_cnt s /\ repeat_cnt s1 = repeat_cnt s /\
    (waiting_all s -> waiting_all s1).
Proof.
  intros Hrun Hall Hk Hrem. destruct (Hall k c Hk) as [Hc Hok].
  unfold step, cb_step. rewrite Hrun, Hk. cbn [mbind option_bind].
  destruct c as [h r p]. unfold counted in Hc. simpl in *.
  destruct h as [i|]; [| done].
  assert (Hkeep : forall p', counted (mk_callback (Counted i) r p') = true ->
            all_counted_ok
              (set_cb k (mk_callback (Counted i) r p') s)).
  { intros p' Hp' j cj Hj. simpl in Hj.
    apply list_lookup_insert_Some in Hj as [(-> & <- & _) | (_ & Hj)];
      [done | exact (Hall j cj Hj)]. }
  destruct p; try done; rewrite ?Hok.
  - eexists. split; [done |]. split_and!; simpl; try done.
    + by apply Hkeep.
    + pose proof (pending_insert _ k _ (mk_callback (Counted i) r CbUnlock) Hk)
        as Hp. simpl in Hp. unfold at_pc. simpl. lia.
  - eexists. split; [done |]. split_and!; simpl; try done.
    + by apply Hkeep.
    + pose proof (pending_insert _ k _ (mk_callback (Counted i) r CbNotify) Hk)
        as Hp. simpl in Hp. unfold at_pc. simpl. lia.
  - eexists. split; [done |]. unfold notify_all, waiting_all.
    split_and!; simpl.
    + by repeat case_match.
    + intros j cj Hj.
      assert (Hj' : <[k := mk_callback (Counted i) r CbDone]> (callbacks s)
                    !! j = Some cj) by (by repeat case_match).
      apply list_lookup_insert_Some in Hj' as [(-> & <- & _) | (_ & Hj')];
        [done | exact (Hall j cj Hj')].
    + pose proof (pending_insert _ k _ (mk_callback (Counted i) r CbDone) Hk)
        as Hp. simpl in Hp. unfold at_pc.
      repeat case_match; simpl; lia.
    + by repeat case_match.
    + by repeat case_match.
    + intros Hw. repeat case_match; simpl; intuition congruence.
Qed.

(** The invocations under way can all be run to their end. *)
Lemma drain (m : nat) (s : state R) :
  pending_steps (callbacks s) = m -> status s = Running ->
  all_counted_ok s ->
  exists tr s',
    Forall (fun l => is_program_step l = true) tr /\
    exec tr s = Some s' /\ status s' = Running /\ quiescent s' /\
    done_cnt s' = done_cnt s /\ repeat_cnt s' = repeat_cnt s /\
    (waiting_all s -> waiting_all s').
Proof.
  revert s. induction m as [|m IH]; intros s Hm Hrun Hall.
  - exists [], s. split_and!; try done.
    intros k c Hk. pose proof (pending_none _ k c Hm Hk) as Hr.
    destruct (Hall k c Hk) as [Hc _]. unfold counted in Hc.
    destruct (cb_handle c); [| done]. by destruct (cb_at c).
  - destruct (pending_exists (callbacks s)) as (k & c & Hk & Hrem); [lia |].
    destruct (counted_step s k c Hrun Hall Hk Hrem)
      as (s1 & Hstep & Hrun1 & Hall1 & Hp1 & Hd1 & Hr1 & Hw1).
    destruct (IH s1) as (tr & s' & Htr & He & Hrun' & Hq & Hd' & Hr' & Hw');
      [lia | done | done |].
    exists (LCallback k :: tr), s'. split_and!; try done; try congruence.
    + by constructor.
    + cbn [exec]. by rewrite Hstep.
    + auto.
Qed.

(** *** The wait for all callbacks *)

Lemma waiting_all_step (s s' : state R) (l : label R) :
  waiting_all s -> done_cnt s < repeat_cnt s -> step l s = Some s' ->
  waiting_all s'.
Proof.
  unfold waiting_all. intros Hw Hlt Hstep.
  step_inv Hstep; simpl.
  all: destruct Hw as [Hw | [Hw | [Hw | Hw]]]; pc_facts; auto.
  match goal with Hle : (_ <=? _) = true |- _ => apply Z.leb_le in Hle end.
  lia.
Qed.

Lemma wait_all_test_true (s : state R) (e : Error) :
  status s = Running -> pc s = MWaitAll WTest ->
  repeat_cnt s <= done_cnt s ->
  step (LMain e) s = Some (set_pc (MWaitAll WUnlock) s).
Proof.
  intros Hrun Hpc Hle. unfold step, main_step, wait_step.
  rewrite Hrun, Hpc. by destruct (Z.leb_spec (repeat_cnt s) (done_cnt s)); [| lia].
Qed.

Lemma wait_all_lock (s : state R) (e : Error) :
  status s = Running -> pc s = MWaitAll WLock -> mtx s = None ->
  step (LMain e) s = Some (set_pc (MWaitAll WTest) (set_mtx (Some Main) s)).
Proof.
  intros Hrun Hpc Hm. unfold step, main_step, wait_step, lock.
  by rewrite Hrun, Hpc, Hm.
Qed.

(** *** The critical sections *)

(** Only a callback invocation that owns the mutex changes
    [done_cnt], [callback_invoked] or [result_placeholder]. *)
Lemma writes_under_mutex (s s' : state R) (l : label R) :
  mutex_inv s -> step l s = Some s' ->
  done_cnt s' <> done_cnt s \/ callback_invoked s' <> callback_invoked s \/
  result_placeholder s' <> result_placeholder s ->
  exists k, l = LCallback k /\ mtx s = Some (Cb k) /\ mtx s' = Some (Cb k).
Proof.
  intros (Hcb & _ & _) Hstep Hw.
  step_inv Hstep; simpl in *; try (by destruct Hw as [? | [? | ?]]).
  all: use_lookups Hcb; pc_facts.
  all: eexists; split; [done |]; intuition.
Qed.




(** *** The deferred result *)

Lemma waiting_one_step (s s' : state R) (l : label R) :
  waiting_one s -> callback_invoked s = false -> step l s = Some s' ->
  waiting_one s'.
Proof.
  unfold waiting_one. intros Hw Hci Hstep.
  step_inv Hstep; simpl.
  all: destruct Hw as [Hw | [Hw | [Hw | Hw]]]; pc_facts; auto.
Qed.

(** The main thread never reads through a null [result_placeholder]. *)
Lemma reachable_not_faulted (n : Z) (s : state R) :
  reachable n s -> status s <> Faulted.
Proof.
  induction 1 as [|s l s' Hs IH Hstep]; [done |].
  pose proof (reachable_read_inv n s Hs) as Hr.
  unfold read_inv, slot_filled in Hr.
  step_inv Hstep; simpl; try congruence.
  destruct Hr as (_ & k & c & _ & _ & Hres); [by pc_facts |].
  destruct s; simpl in *. congruence.
Qed.

(** Before [MRead], what the main thread does is independent of
    [result_placeholder]. *)
Lemma main_ignores_slot (s : state R) (e : Error) (rp : option R) :
  pc s <> MRead ->
  main_step e (set_result_placeholder rp s)
  = set_result_placeholder rp <$> main_step e s.
Proof.
  intros Hpc. destruct s as [m n d ci r p cbs sub co ce st].
  unfold main_step, wait_step, lock, submit; simpl in *.
  destruct p as [i | [] | | | [] | |]; simpl; try done.
  all: repeat case_match; simpl; try done.
Qed.

(** C5: the second wait does not return while [callback_invoked] is
    false; from its return on, the flag is set and
    [result_placeholder] holds the result that the library passed to
    the deferred request's callback, so the read of the slot never
    finds it empty; before that read, which comes after the block of
    the wait has released the mutex, the main thread does not depend on
    the slot; and the flag and the slot are both written under [mtx],
    by the invocation that owns it. *)
Theorem deferred_result_handoff (n : Z) (s : state R) :
  reachable n s ->
  (forall l s', waiting_one s -> callback_invoked s = false ->
                step l s = Some s' -> waiting_one s') /\
  (after_wait_one (pc s) = true ->
   callback_invoked s = true /\ slot_filled s) /\
  (forall e rp, pc s <> MRead ->
     main_step e (set_result_placeholder rp s)
     = set_result_placeholder rp <$> main_step e s) /\
  status s <> Faulted /\
  (pc s = MRead -> mtx s <> Some Main) /\
  (forall k c, callbacks s !! k = Some c -> cb_handle c = Deferred ->
     cb_at c = CbFirst \/ cb_at c = CbSecond -> mtx s = Some (Cb k)) /\
  (forall l s', step l s = Some s' ->
     callback_invoked s' <> callback_invoked s \/
     result_placeholder s' <> result_placeholder s ->
     exists k, l = LCallback k /\ mtx s = Some (Cb k)).
Proof.
  intros Hs. pose proof (reachable_mutex_inv n s Hs) as Hm.
  split_and!.
  - intros l s'. apply waiting_one_step.
  - by apply (reachable_read_inv n).
  - intros e rp. apply main_ignores_slot.
  - by apply (reachable_not_faulted n).
  - intros Hpc Hmtx. destruct Hm as (_ & Hmain & _).
    apply Hmain in Hmtx. by rewrite Hpc in Hmtx.
  - intros k c Hk _ Hat. destruct Hm as (Hcb & _ & _).
    apply (Hcb k c Hk). by destruct Hat as [-> | ->].
  - intros l s' Hstep Hw.
    destruct (writes_under_mutex s s' l Hm Hstep) as (k & -> & Hk & _);
      [tauto | eauto].
Qed.

(** *** What the first wait waits for *)






(** *** Completions delivered twice *)

Lemma completions_le_handles (l : list (callback R)) :
  completions l <= Z.of_nat (length (counted_handles l)).
Proof.
  unfold counted_handles. induction l as [|c l IH]; [done |].
  cbn [completions fmap list_fmap]. rewrite filter_cons.
  unfold counted. destruct (cb_handle c) as [i|].
  - rewrite decide_True by done. cbn [length].
    destruct (cb_at c); lia.
  - rewrite decide_False by (intros ?; done). lia.
Qed.

Lemma completions_nonneg (l : list (callback R)) : 0 <= completions l.
Proof.
  induction l as [|c l IH]; simpl; [done |]. destruct (counted c); lia.
Qed.

Lemma requests_mono (i n : Z) (h : handle) :
  i <= n -> h ∈ requests i -> h ∈ requests n.
Proof.
  unfold requests. intros Hle Hin.
  apply list_elem_of_fmap in Hin as (j & -> & Hj).
  apply list_elem_of_fmap. exists j. split; [done |].
  apply elem_of_seqZ in Hj. apply elem_of_seqZ. lia.
Qed.

Lemma submitted_within (n : Z) (s : state R) (h : handle) :
  program_order_inv n s -> h ∈ submitted s -> h <> Deferred ->
  h ∈ requests n.
Proof.
  intros [_ Hsub] Hin Hne.
  destruct (pc s) as [i | w | | | w | |].
  - destruct Hsub as [Hi Hsub]. rewrite Hsub in Hin.
    eapply requests_mono; [| done]. lia.
  - by rewrite Hsub in Hin.
  - by rewrite Hsub in Hin.
  - by rewrite Hsub in Hin.
  - rewrite Hsub, elem_of_app, list_elem_of_singleton in Hin. tauto.
  - rewrite Hsub, elem_of_app, list_elem_of_singleton in Hin. tauto.
  - rewrite Hsub, elem_of_app, list_elem_of_singleton in Hin. tauto.
Qed.

Lemma once_each_bound (n : Z) (s : state R) :
  0 <= n -> program_order_inv n s -> handles_inv s -> once_each s ->
  completions (callbacks s) <= n.
Proof.
  intros Hn Hpo Hh Honce.
  etransitivity; [apply completions_le_handles |].
  assert (Hsub : counted_handles (callbacks s) ⊆+ requests n).
  { apply NoDup_submseteq.
    - by apply NoDup_filter.
    - intros h Hin. apply list_elem_of_filter in Hin as [Hne Hin].
      apply list_elem_of_fmap in Hin as (c & -> & Hc).
      apply list_elem_of_lookup in Hc as [k Hk].
      eapply submitted_within; eauto. }
  apply submseteq_length in Hsub. unfold requests in Hsub.
  rewrite length_fmap, length_seqZ in Hsub. lia.
Qed.

Lemma compare_mismatch (s : state R) (e : Error) :
  status s = Running -> pc s = MCompare -> done_cnt s <> repeat_cnt s ->
  step (LMain e) s
  = Some (exit 1
            (eprint ("Done cnt: " +:+ pretty (done_cnt s)
                     +:+ " does not match repeat cnt: "
                     +:+ pretty (repeat_cnt s)) s)).
Proof.
  intros Hrun Hpc Hne. unfold step, main_step. rewrite Hrun, Hpc.
  destruct (Z.eqb_spec (done_cnt s) (repeat_cnt s)); done.
Qed.

(** C2, as the code has it: the callback has no guard of its own;
    every invocation the library makes increments [done_cnt], so
    [done_cnt] is the number of invocations that have run their
    increment (modulo 2^64).  When the library completes no request
    twice, that number is at most [repeat_cnt].  A count that differs
    from [repeat_cnt] is noticed by the comparison after the wait,
    which ends the process with status 1. *)
Theorem completion_counted_per_invocation (n : Z) (s : state R) :
  0 <= n < 2 ^ 64 -> reachable n s ->
  done_cnt s = completions (callbacks s) mod 2 ^ 64 /\
  (forall k c i s', callbacks s !! k = Some c ->
                    cb_handle c = Counted i -> cb_at c = CbFirst ->
                    step (LCallback k) s = Some s' ->
                    done_cnt s' = incr (done_cnt s)) /\
  (once_each s ->
   done_cnt s = completions (callbacks s) /\ done_cnt s <= repeat_cnt s) /\
  (forall e, status s = Running -> pc s = MCompare ->
             done_cnt s <> repeat_cnt s ->
             exists s', step (LMain e) s = Some s' /\ status s' = Exited 1).
Proof.
  intros Hn Hs.
  pose proof (reachable_count_inv n s Hs) as Hc.
  pose proof (reachable_program_order_inv n s Hn Hs) as Hpo.
  pose proof (reachable_handles_inv n s Hs) as Hh.
  split_and!.
  - done.
  - intros k c i s' Hk Hhd Hat Hstep. step_inv Hstep; simpl; congruence.
  - intros Honce.
    pose proof (once_each_bound n s (proj1 Hn) Hpo Hh Honce) as Hb.
    pose proof (completions_nonneg (callbacks s)) as H0.
    rewrite Hc, Z.mod_small by lia. split; [done |].
    destruct Hpo as [-> _]. done.
  - intros e Hrun Hpc Hne. eexists. split;
      [by apply compare_mismatch | done].
Qed.

(** *** A request that is never completed *)

Lemma stuck_step (s s' : state R) (l : label R) :
  stuck s -> is_deliver l = false -> step l s = Some s' ->
  stuck s' /\ done_cnt s' = done_cnt s.
Proof.
  unfold stuck, waiting_all, quiescent. intros (Hw & Hrun & Hq & Hlt) Hl Hstep.
  step_inv Hstep; simpl in *; try done.
  all: try match goal with
         | Hk : callbacks _ !! _ = Some _ |- _ =>
             apply Hq in Hk; congruence
         end.
  all: destruct Hw as [Hw | [Hw | [Hw | Hw]]]; try congruence.
  all: try (split_and!; auto 6; fail).
  match goal with Hle : (_ <=? _) = true |- _ => apply Z.leb_le in Hle end.
  lia.
Qed.

Lemma stuck_exec (tr : list (label R)) (s s' : state R) :
  stuck s -> Forall (fun l => is_deliver l = false) tr ->
  exec tr s = Some s' -> stuck s' /\ done_cnt s' = done_cnt s.
Proof.
  revert s. induction tr as [|l tr IH]; intros s Hst Hall He.
  - by simplify_eq/=.
  - apply Forall_cons in Hall as [Hl Hall]. cbn [exec] in He.
    destruct (step l s) as [s1|] eqn:Hstep; [| done].
    cbn [mbind option_bind] in He.
    destruct (stuck_step s s1 l Hst Hl Hstep) as [Hst1 Hd1].
    destruct (IH s1 Hst1 Hall He) as [Hst' Hd']. split; [done | congruence].
Qed.

Lemma blocked_main_disabled (s : state R) (e : Error) :
  pc s = MWaitAll WBlocked -> step (LMain e) s = None.
Proof.
  intros Hpc. unfold step, main_step, wait_step. rewrite Hpc.
  by destruct (status s).
Qed.

Lemma quiescent_mutex_free (s : state R) :
  mutex_inv s -> quiescent s -> main_in_critical (pc s) = false ->
  mtx s = None.
Proof.
  intros (Hcb & Hmain & Hbound) Hq Hpc.
  destruct (mtx s) as [[|k]|] eqn:Hm; [| | done].
  - destruct Hmain as [_ Hmain]. rewrite Hmain in Hpc; done.
  - destruct (lookup_lt_is_Some_2 (callbacks s) k) as [c Hk];
      [by apply Hbound |].
    pose proof (Hq k c Hk) as Hat. apply Hcb in Hk as [_ Hk].
    rewrite Hat in Hk. by specialize (Hk eq_refl).
Qed.

(** The late completion of the missing request lets the wait return. *)
Lemma late_completion (s : state R) (i : Z) (r : R) (e1 e2 e3 : Error) :
  status s = Running -> mtx s = None -> pc s = MWaitAll WBlocked ->
  Counted i ∈ submitted s -> IsOk (RequestStatus r) = true ->
  repeat_cnt s <= incr (done_cnt s) ->
  exists s',
    exec (LDeliver (Counted i) r :: whole_callback (length (callbacks s))
            ++ [LMain e1; LMain e2; LMain e3]) s = Some s' /\
    pc s' = MCompare /\ status s' = Running /\
    done_cnt s' = incr (done_cnt s).
Proof.
  intros Hrun Hm Hpc Hi Hok Hle.
  change (LDeliver (Counted i) r :: whole_callback (length (callbacks s))
            ++ [LMain e1; LMain e2; LMain e3])
    with ((LDeliver (Counted i) r :: whole_callback (length (callbacks s)))
            ++ [LMain e1; LMain e2; LMain e3]).
  rewrite exec_app, exec_callback_counted by done.
  cbn [mbind option_bind]. unfold notify_all. rewrite Hpc. simpl.
  unfold step at 1. simpl. unfold main_step. simpl.
  unfold step at 1. simpl. unfold main_step. simpl.
  destruct (Z.leb_spec (repeat_cnt s) (incr (done_cnt s))); [| lia]. simpl.
  eexists. split; [reflexivity | done].
Qed.

(** C3, as the code has it: the wait takes no timeout.  While a
    submitted request stays uncompleted and no callback is under way,
    the blocked main thread has no step of its own, and whatever else
    happens short of a completion leaves it inside the wait, the
    process running; no timeout error is produced.  When the missing
    completion does arrive, the wait returns and [main] goes on. *)
Theorem wait_all_has_no_timeout (n : Z) (s : state R) :
  reachable n s -> stuck s ->
  (pc s = MWaitAll WBlocked -> forall e, step (LMain e) s = None) /\
  (forall tr s', Forall (fun l => is_deliver l = false) tr ->
                 exec tr s = Some s' ->
                 stuck s' /\ done_cnt s' = done_cnt s) /\
  (pc s = MWaitAll WBlocked ->
   forall i r e1 e2 e3,
     Counted i ∈ submitted s -> IsOk (RequestStatus r) = true ->
     repeat_cnt s <= incr (done_cnt s) ->
     exists s',
       exec (LDeliver (Counted i) r :: whole_callback (length (callbacks s))
               ++ [LMain e1; LMain e2; LMain e3]) s = Some s' /\
       pc s' = MCompare /\ status s' = Running /\
       done_cnt s' = incr (done_cnt s)).
Proof.
  intros Hs Hst. split_and!.
  - intros Hpc e. by apply blocked_main_disabled.
  - intros tr s'. by apply stuck_exec.
  - intros Hpc i r e1 e2 e3 Hi Hok Hle.
    destruct Hst as (_ & Hrun & Hq & _).
    apply late_completion; try done.
    apply quiescent_mutex_free; [by eapply reachable_mutex_inv | done |].
    by rewrite Hpc.
Qed.

(** *** Failed inferences *)






(** *** The wait can return *)

Lemma completions_le_length (l : list (callback R)) :
  completions l <= Z.of_nat (length l).
Proof.
  induction l as [|c l IH]; simpl; [done |]. destruct (counted c); lia.
Qed.

Lemma completions_full (l : list (callback R)) (k : nat) (c : callback R) :
  completions l = Z.of_nat (length l) -> l !! k = Some c -> counted c = true.
Proof.
  revert k. induction l as [|x l IH]; intros [|k] Hfull Hk; simplify_eq/=.
  - pose proof (completions_le_length l). destruct (counted c); [done | lia].
  - apply (IH k); [| done].
    pose proof (completions_le_length l). destruct (counted x); lia.
Qed.

(** When the library has completed no request twice and the count has
    reached [repeat_cnt], every invocation has run its increment. *)
Lemma all_counted_when_done (n : Z) (s : state R) (k : nat) (c : callback R) :
  0 <= n < 2 ^ 64 -> reachable n s -> waiting_all s -> once_each s ->
  repeat_cnt s <= done_cnt s -> callbacks s !! k = Some c ->
  counted c = true.
Proof.
  intros Hn Hs Hw Honce Hle Hk.
  destruct (reachable_program_order_inv n s Hn Hs) as [Hrep Hsub].
  pose proof (reachable_handles_inv n s Hs) as Hh.
  pose proof (reachable_count_inv n s Hs) as Hc. unfold count_inv in Hc.
  assert (Hreq : submitted s = requests n).
  { unfold waiting_all in Hw.
    destruct Hw as [Hw | [Hw | [Hw | Hw]]]; by rewrite Hw in Hsub. }
  assert (Hlen : Z.of_nat (length (callbacks s)) <= n).
  { assert (Hsm : cb_handle <$> callbacks s ⊆+ requests n).
    { apply NoDup_submseteq; [done |]. intros h Hin.
      apply list_elem_of_fmap in Hin as (cj & -> & Hcj).
      apply list_elem_of_lookup in Hcj as [j Hj].
      rewrite <- Hreq. by eapply Hh. }
    apply submseteq_length in Hsm. unfold requests in Hsm.
    rewrite !length_fmap, length_seqZ in Hsm. lia. }
  pose proof (completions_le_length (callbacks s)) as Hcl.
  pose proof (completions_nonneg (callbacks s)) as Hc0.
  rewrite Z.mod_small in Hc by lia.
  eapply completions_full; [| done]. lia.
Qed.

Lemma wait_all_relock (s : state R) (e : Error) :
  status s = Running -> pc s = MWaitAll WWoken -> mtx s = None ->
  step (LMain e) s = Some (set_pc (MWaitAll WTest) (set_mtx (Some Main) s)).
Proof.
  intros Hrun Hpc Hm. unfold step, main_step, wait_step, lock.
  by rewrite Hrun, Hpc, Hm.
Qed.

(** With every request completed once and successfully, the program can
    bring the wait to its return by its own steps. *)
Lemma wait_all_can_return (n : Z) (s : state R) :
  0 <= n < 2 ^ 64 -> reachable n s -> status s = Running ->
  waiting_all s -> repeat_cnt s <= done_cnt s -> once_each s ->
  (forall k c, callbacks s !! k = Some c ->
               IsOk (RequestStatus (cb_result c)) = true) ->
  exists tr s',
    Forall (fun l => is_program_step l = true) tr /\
    exec tr s = Some s' /\ pc s' = MWaitAll WUnlock.
Proof.
  intros Hn Hs Hrun Hw Hle Honce Hok.
  assert (Hall : all_counted_ok s).
  { intros k c Hk. split; [| by eapply Hok].
    by eapply (all_counted_when_done n s k c). }
  destruct (drain _ s eq_refl Hrun Hall)
    as (tr & s1 & Htr & He & Hrun1 & Hq & Hd & Hr & Hw1).
  specialize (Hw1 Hw).
  pose proof (exec_reachable n tr s s1 Hs He) as Hs1.
  pose proof (reachable_mutex_inv n s1 Hs1) as Hm1.
  assert (Hle1 : repeat_cnt s1 <= done_cnt s1) by lia.
  destruct Hw1 as [Hpc | [Hpc | [Hpc | Hpc]]].
  - assert (Hfree : mtx s1 = None)
      by (apply quiescent_mutex_free; [done | done | by rewrite Hpc]).
    exists (tr ++ [LMain Success; LMain Success]); eexists. split_and!.
    + apply Forall_app. split; [done | by repeat constructor].
    + rewrite exec_app, He. cbn [mbind option_bind exec].
      rewrite wait_all_lock by done. cbn [mbind option_bind].
      rewrite wait_all_test_true by done. reflexivity.
    + done.
  - exists (tr ++ [LMain Success]); eexists. split_and!.
    + apply Forall_app. split; [done | by repeat constructor].
    + rewrite exec_app, He. cbn [mbind option_bind exec].
      rewrite wait_all_test_true by done. reflexivity.
    + done.
  - destruct (reachable_wakeup_inv n s1 Hs1 Hrun1 Hpc Hle1)
      as (k & c & Hk & Hdue).
    apply Hq in Hk as Hat. unfold notify_due in Hdue. rewrite Hat in Hdue.
    by destruct (cb_handle c).
  - assert (Hfree : mtx s1 = None)
      by (apply quiescent_mutex_free; [done | done | by rewrite Hpc]).
    exists (tr ++ [LMain Success; LMain Success]); eexists. split_and!.
    + apply Forall_app. split; [done | by repeat constructor].
    + rewrite exec_app, He. cbn [mbind option_bind exec].
      rewrite wait_all_relock by done. cbn [mbind option_bind].
      rewrite wait_all_test_true by done. reflexivity.
    + done.
Qed.

(** C1, as the code has it: the wait for all callbacks does not return
    while [done_cnt] is below [repeat_cnt].  It returns when it tests
    its condition with [done_cnt] at or above [repeat_cnt]; while it is
    blocked with the condition true a notification is still to come;
    and once every request has been completed, once and successfully,
    the steps of the program alone bring the wait to its return.  When
    the [n] requests have been submitted and their callbacks have run
    with successful results, in any order, before the wait starts, the
    wait returns at once, without blocking.  A completion that reports
    a failure is counted and then ends the process with status 1 in its
    callback, after which no thread takes a step. *)
Theorem wait_all_returns_iff_done (n : Z) :
  (forall s, reachable n s ->
     (pc s = MWaitAll WUnlock -> repeat_cnt s <= done_cnt s) /\
     (forall l s', waiting_all s -> done_cnt s < repeat_cnt s ->
                   step l s = Some s' -> waiting_all s') /\
     (forall e, status s = Running -> pc s = MWaitAll WTest ->
                repeat_cnt s <= done_cnt s ->
                exists s', step (LMain e) s = Some s' /\
                           pc s' = MWaitAll WUnlock) /\
     (status s = Running -> pc s = MWaitAll WBlocked ->
      repeat_cnt s <= done_cnt s ->
      exists k c, callbacks s !! k = Some c /\ notify_due c = true) /\
     (forall k c, status s = Running -> callbacks s !! k = Some c ->
        cb_at c = CbSecond -> cb_handle c <> Deferred ->
        IsOk (RequestStatus (cb_result c)) = false ->
        exists s', step (LCallback k) s = Some s' /\
                   status s' = Exited 1 /\ pc s' = pc s /\
                   forall l, step l s' = None)) /\
  (0 <= n < 2 ^ 64 ->
   (forall s, reachable n s -> status s = Running -> waiting_all s ->
      repeat_cnt s <= done_cnt s -> once_each s ->
      (forall k c, callbacks s !! k = Some c ->
                   IsOk (RequestStatus (cb_result c)) = true) ->
      exists tr s',
        Forall (fun l => is_program_step l = true) tr /\
        exec tr s = Some s' /\ pc s' = MWaitAll WUnlock) /\
   (forall (cs : list (Z * R)) (e1 e2 : Error),
      Permutation (cs.*1) (seqZ 0 n) ->
      Forall (fun c => IsOk (RequestStatus c.2) = true) cs ->
      exists s1 s2 s3,
        exec (submit_all n ++ complete_all 0 cs) (init n) = Some s1 /\
        pc s1 = MWaitAll WLock /\ done_cnt s1 = repeat_cnt s1 /\
        step (LMain e1) s1 = Some s2 /\ pc s2 = MWaitAll WTest /\
        step (LMain e2) s2 = Some s3 /\ pc s3 = MWaitAll WUnlock)).
Proof.
  split.
  - intros s Hs. split_and!.
    + by apply (reachable_returned_inv n).
    + intros l s'. apply waiting_all_step.
    + intros e Hrun Hpc Hle. eexists. split;
        [by apply wait_all_test_true | done].
    + by apply (reachable_wakeup_inv n).
    + intros k c Hrun Hk Hat Hh Hfail. eexists. split_and!.
      * unfold step, cb_step. rewrite Hrun, Hk. cbn [mbind option_bind].
        rewrite Hat, Hfail. by destruct (cb_handle c).
      * done.
      * done.
      * intros l. by destruct l.
  - intros Hn. split; [intros s; by apply wait_all_can_return |].
    intros cs e1 e2 Hperm Hok.
    pose proof (exec_submit_all n Hn) as Hsub.
    set (s0 := set_pc (MWaitAll WLock) (set_submitted (requests n) (init n)))
      in Hsub.
    destruct (exec_complete_all cs s0)
      as (s1 & He & Hrun & Hm & Hpc & Hrep & Hd); try done.
    { apply Forall_forall. intros [i r] Hin. simpl. split.
      - unfold requests. apply list_elem_of_fmap. exists i. split; [done |].
        rewrite <- Hperm. apply list_elem_of_fmap. by exists (i, r).
      - by apply (proj1 (Forall_forall _ _) Hok (i, r)). }
    assert (Hlen : Z.of_nat (length cs) = n).
    { rewrite <- (length_fmap fst cs), Hperm, length_seqZ. lia. }
    simpl in He, Hd, Hrep. rewrite Hlen, Z.add_0_l, Z.mod_small in Hd by lia.
    exists s1, (set_pc (MWaitAll WTest) (set_mtx (Some Main) s1)),
      (set_pc (MWaitAll WUnlock)
         (set_pc (MWaitAll WTest) (set_mtx (Some Main) s1))).
    split_and!; try done.
    + by rewrite exec_app, Hsub.
    + congruence.
    + by apply wait_all_lock.
    + apply wait_all_test_true; simpl; try done. lia.
Qed.

End AsyncFacts.

(** ** The theorems on concrete runs *)

Section Runs.
Import AsyncClient Scenarios.

Lemma after_reachable (tr : list (label response)) :
  is_Some (exec tr (init repeat_cnt_main)) ->
  reachable repeat_cnt_main (after tr).
Proof.
  intros [s Hs]. unfold after. rewrite Hs. simpl.
  eapply exec_reachable; [apply reach_init | done].
Qed.

Lemma size_t_one : 0 <= repeat_cnt_main < 2 ^ 64.
Proof. unfold repeat_cnt_main. lia. Qed.

End Runs.

Section RunWitnesses.
Import AsyncClient Scenarios.

Example sync_validate_passes :
  SyncClient.validate sums_and_differences = Ret tt.
Proof. vm_compute. reflexivity. Qed.

Example sync_validate_rejects :
  SyncClient.validate outputs_exchanged = Exit 1 ["error: incorrect sum"].
Proof. vm_compute. reflexivity. Qed.

(** One request, completed with a failure.  If [main] was blocked in
    the wait, [done_cnt] reaches [repeat_cnt] and yet the wait does not
    return: the callback has ended the process with status 1.  If the
    failure came before the wait, [main] never takes the step that
    starts it. *)
Lemma wait_all_never_returns_after_failure :
  exec failed_while_blocked (init 1)
  = Some (mk_state (Some (Cb 0)) 1 1 false None (MWaitAll WBlocked)
            [mk_callback (Counted 0) failed CbSecond] [Counted 0]
            ["Callback no.0 is called"]
            ["error: Inference failed: Deadline Exceeded"] (Exited 1)) /\
  step (LMain Success) (after failed_while_blocked) = None /\
  step LSpurious (after failed_while_blocked) = None /\
  step (LCallback 0) (after failed_while_blocked) = None /\
  status (after failed_before_wait) = Exited 1 /\
  pc (after failed_before_wait) = MWaitAll WLock /\
  exec (failed_before_wait ++ [LMain Success]) (init 1) = None.
Proof. split_and!; vm_compute; reflexivity. Qed.

Lemma wait_all_returns_iff_done_witness :
  (exists tr s',
      Forall (fun l => is_program_step l = true) tr /\
      exec tr (after completed_while_blocked) = Some s' /\
      pc s' = MWaitAll WUnlock) /\
  (exists s1 s2 s3,
      exec (submit_all 1 ++ complete_all 0 [(0, ok)]) (init 1) = Some s1 /\
      pc s1 = MWaitAll WLock /\ done_cnt s1 = repeat_cnt s1 /\
      step (LMain Success) s1 = Some s2 /\ pc s2 = MWaitAll WTest /\
      step (LMain Success) s2 = Some s3 /\ pc s3 = MWaitAll WUnlock) /\
  waiting_all (after (never_completed ++ [LSpurious])).
Proof.
  destruct (wait_all_returns_iff_done (R:=response) 1) as [Hany Hall].
  split_and!.
  - apply (proj1 (Hall size_t_one) (after completed_while_blocked)).
    + apply after_reachable. vm_compute. by eexists.
    + vm_compute. reflexivity.
    + right; right; left. vm_compute. reflexivity.
    + vm_compute. discriminate.
    + unfold once_each. vm_compute. apply NoDup_singleton.
    + intros k c Hk. vm_compute in Hk.
      destruct k as [|[|k]]; by simplify_eq.
  - apply (proj2 (Hall size_t_one) [(0, ok)] Success Success).
    + reflexivity.
    + by repeat constructor.
  - destruct (Hany (after never_completed)) as (_ & Hstay & _).
    { apply after_reachable. vm_compute. by eexists. }
    apply (Hstay LSpurious).
    + right; right; left. vm_compute. reflexivity.
    + vm_compute. reflexivity.
    + vm_compute. reflexivity.
Defined.

(** With one request submitted and never completed, the main thread
    blocks in [cv.wait]: it has no step of its own, and a wake-up
    without a completion only brings it back to the same state.  No
    timeout ends the wait. *)
Lemma wait_all_blocks_without_completion :
  exec never_completed (init 1)
  = Some (mk_state None 1 0 false None (MWaitAll WBlocked) []
            [Counted 0] [] [] Running) /\
  step (LMain Success) (after never_completed) = None /\
  exec [LSpurious; LMain Success; LMain Success] (after never_completed)
  = Some (after never_completed).
Proof. split_and!; vm_compute; reflexivity. Qed.

Lemma wait_all_has_no_timeout_witness :
  step (LMain Success) (after never_completed) = None /\
  exists s',
    exec (LDeliver (Counted 0) ok :: whole_callback 0
            ++ [LMain Success; LMain Success; LMain Success])
      (after never_completed) = Some s' /\
    pc s' = MCompare /\ status s' = Running /\
    done_cnt s' = incr (done_cnt (after never_completed)).
Proof.
  assert (Hr : reachable repeat_cnt_main (after never_completed))
    by (apply after_reachable; vm_compute; by eexists).
  assert (Hst : stuck (after never_completed)).
  { split_and!.
    - right; right; left. vm_compute. reflexivity.
    - vm_compute. reflexivity.
    - intros k c Hk. vm_compute in Hk. by destruct k.
    - vm_compute. reflexivity. }
  destruct (wait_all_has_no_timeout repeat_cnt_main _ Hr Hst)
    as (Hnone & _ & Hlate).
  split.
  - by apply Hnone.
  - apply (Hlate ltac:(vm_compute; reflexivity) 0 ok Success Success Success).
    + vm_compute. by apply list_elem_of_singleton.
    + reflexivity.
    + vm_compute. discriminate.
Defined.

(** The library completes the one request twice: the callback body
    runs twice, [done_cnt] becomes 2 with [repeat_cnt] 1, and nothing
    is signalled at the second completion. *)
Lemma double_completion_unguarded :
  exec completed_twice (init 1)
  = Some (mk_state None 1 2 false None (MWaitAll WLock)
            [mk_callback (Counted 0) ok CbDone;
             mk_callback (Counted 0) ok CbDone]
            [Counted 0]
            ["Callback no.0 is called"; "Callback no.0 is called"]
            [] Running).
Proof. vm_compute. reflexivity. Qed.

Lemma completion_counted_per_invocation_witness :
  (done_cnt (after (submit_all 1 ++ complete_all 0 [(0, ok)]))
   = completions (callbacks (after (submit_all 1 ++ complete_all 0 [(0, ok)])))
   /\
   done_cnt (after (submit_all 1 ++ complete_all 0 [(0, ok)]))
   <= repeat_cnt (after (submit_all 1 ++ complete_all 0 [(0, ok)]))) /\
  exists s',
    step (LMain Success)
      (after (completed_twice ++ replicate 3 (LMain Success))) = Some s' /\
    status s' = Exited 1.
Proof.
  split.
  - destruct (completion_counted_per_invocation repeat_cnt_main
                (after (submit_all 1 ++ complete_all 0 [(0, ok)])))
      as (_ & _ & Honce & _).
    + exact size_t_one.
    + apply after_reachable. vm_compute. by eexists.
    + apply Honce. unfold once_each. vm_compute.
      apply NoDup_singleton.
  - destruct (completion_counted_per_invocation repeat_cnt_main
                (after (completed_twice ++ replicate 3 (LMain Success))))
      as (_ & _ & _ & Hcmp).
    + exact size_t_one.
    + apply after_reachable. vm_compute. by eexists.
    + apply (Hcmp Success); vm_compute; [reflexivity | reflexivity |].
      discriminate.
Defined.


Lemma deferred_result_handoff_witness :
  callback_invoked (after (up_to_read ok)) = true /\
  slot_filled (after (up_to_read ok)).
Proof.
  destruct (deferred_result_handoff repeat_cnt_main (after (up_to_read ok)))
    as (_ & Hread & _).
  - apply after_reachable. vm_compute. by eexists.
  - apply Hread. vm_compute. reflexivity.
Defined.



End RunWitnesses.
